(** * Mini-league forfeits dashboard: the last-place engine of [app.py]

    A shallow embedding of the two core functions of [app.py],
    [compute_last_by_gw] (the resolver) and [merge_overview] (the
    aggregator), together with the properties the specification states
    about them.

    A pandas [DataFrame] is a list of rows (a record per row, one field per
    column); a [Series] produced by [groupby] has a unique index and is a
    finite map from the index to the value; Python's [dict] of overrides is
    a finite map from the gameweek to the override. *)

From stdpp Require Import gmap strings list list_numbers sorting.
From stdpp Require Import pretty.

Open Scope Z_scope.

(** ** Data model *)

(** A row of [gw_points_df] (built by [build_gw_points]) in a frame
    without missing cells: every item of a history has its points.  A frame
    with missing points is [list GwCell], below. *)
Record GwPoints := {
  gp_entry : Z;
  gp_event : Z;
  gp_gw_points : Z;
  gp_total_points : Z
}.

(** A row of [entries_df] (built by [get_all_entries]). *)
Record Entry := {
  en_entry : Z;
  en_entry_name : string;
  en_player_name : string
}.

(** A value of the [overrides] dict, as [load_overrides] builds it:
    [{"action": r.action, "note": (r.note or "")}].  The action is the text
    read from the store; the resolver compares it with string literals. *)
Record Override := {
  ov_action : string;
  ov_note : string
}.

(** The [reason] column, by the docstring of [compute_last_by_gw]:
    [None | 'skipped' | 'ejected' | 'no-data'] ([None] is Rocq's [None]). *)
Inductive Reason := Skipped | Ejected | NoData.

(** A row of the frame [compute_last_by_gw] returns. *)
Record LastRow := {
  lr_event : Z;
  lr_min_points : option Z;
  lr_last_entries : list Z;
  lr_reason : option Reason
}.

(** A row of the frame [merge_overview] returns: the columns of
    [entries_df], then [times_last], [last_gws] and [forfeits].  A missing
    cell of [forfeits] (pandas' NaN after a left merge) is [None]. *)
Record OverviewRow := {
  o_entry : Entry;
  o_times_last : nat;
  o_last_gws : list Z;
  o_forfeits : option string
}.

Global Instance Reason_eq_dec : EqDecision Reason.
Proof. solve_decision. Defined.
Global Instance Entry_eq_dec : EqDecision Entry.
Proof. solve_decision. Defined.
Global Instance Override_eq_dec : EqDecision Override.
Proof. solve_decision. Defined.
Global Instance LastRow_eq_dec : EqDecision LastRow.
Proof. solve_decision. Defined.

(** ** The resolver: [compute_last_by_gw] *)

(** [range(gw_from, gw_to + 1)]: empty when [gw_to < gw_from]. *)
Definition py_range (lo hi : Z) : list Z := seqZ lo (hi - lo).

(** [Series.min()] of a series without missing values: the least value,
    missing for an empty series.  [series_min_skipna] is [Series.min()] of a
    series that may hold missing values. *)
Definition series_min (s : list Z) : option Z :=
  match s with
  | [] => None
  | x :: xs => Some (foldr Z.min x xs)
  end.

(** [sub = gw_points_df[gw_points_df["event"] == gw]] *)
Definition rows_of_event (gw_points_df : list GwPoints) (gw : Z) : list GwPoints :=
  filter (λ r, gp_event r = gw) gw_points_df.

(** [sub[sub["gw_points"] == min_pts]["entry"].tolist()] *)
Definition entries_at (sub : list GwPoints) (min_pts : option Z) : list Z :=
  gp_entry <$> filter (λ r, Some (gp_gw_points r) = min_pts) sub.

(** The [# Apply override] block: the pair [(last_entries, reason)] after
    it.  A value of the dict is a dict with two keys, hence truthy, so
    [if ov:] holds exactly when the gameweek has an entry. *)
Definition apply_override (ov : option Override) (last_entries : list Z)
  : list Z * option Reason :=
  let reason := None in
  match ov with
  | Some ov =>
      let act := ov_action ov in
      if decide (act = "eject") then ([], Some Ejected)
      else if decide (act = "skip") then ([], Some Skipped)
      else (last_entries, None)
  | None => (last_entries, reason)
  end.

(** The body of the [for gw in ...] loop: the row appended to [out]. *)
Definition round_row (gw_points_df : list GwPoints) (overrides : gmap Z Override)
    (gw : Z) : LastRow :=
  let sub := rows_of_event gw_points_df gw in
  match sub with
  | [] =>
      {| lr_event := gw; lr_min_points := None;
         lr_last_entries := []; lr_reason := Some NoData |}
  | _ :: _ =>
      let min_pts := series_min (gp_gw_points <$> sub) in
      let last_entries := entries_at sub min_pts in
      let '(last_entries, reason) := apply_override (overrides !! gw) last_entries in
      {| lr_event := gw; lr_min_points := min_pts;
         lr_last_entries := last_entries; lr_reason := reason |}
  end.

(** [compute_last_by_gw]: [out] starts empty and gets one row per gameweek
    of the range, appended in the order of the range. *)
Definition compute_last_by_gw (gw_points_df : list GwPoints) (gw_from gw_to : Z)
    (overrides : gmap Z Override) : list LastRow :=
  foldl (λ out gw, out ++ [round_row gw_points_df overrides gw]) []
        (py_range gw_from (gw_to + 1)).

(** The outcome of a Python call: a value, or an exception. *)
Inductive PyExn := ValueError | KeyError.
Inductive Outcome (A : Type) := Returned (a : A) | Raised (e : PyExn).
Global Arguments Returned {A} a.
Global Arguments Raised {A} e.

(** A call of [compute_last_by_gw]: the body has no [raise], no lookup that
    can fail on these frames ([overrides.get] is the total lookup) and no
    test of [act] other than the two comparisons, so every call returns. *)
Definition call_compute_last_by_gw (gw_points_df : list GwPoints) (gw_from gw_to : Z)
    (overrides : gmap Z Override) : Outcome (list LastRow) :=
  Returned (compute_last_by_gw gw_points_df gw_from gw_to overrides).

(** ** The aggregator: [merge_overview] *)

(** [row.get("reason") in ("ejected", "skipped", "no-data")] *)
Definition reason_excluded (r : option Reason) : bool :=
  match r with
  | Some Ejected | Some Skipped | Some NoData => true
  | None => false
  end.

(** The first loop: [last_expanded], the rows [(entry, event)] in the
    order they are appended. *)
Definition last_expanded (last_df : list LastRow) : list (Z * Z) :=
  foldl (λ acc row,
           if reason_excluded (lr_reason row) then acc
           else foldl (λ acc e, acc ++ [(e, lr_event row)]) acc (lr_last_entries row))
        [] last_df.

(** [last_map.groupby("entry")["event"]]: per entry, its events in row
    order.  The result is indexed by the entries that occur. *)
Definition groupby_entry (last_map : list (Z * Z)) : gmap Z (list Z) :=
  foldl (λ g p, <[p.1 := default [] (g !! p.1) ++ [p.2]]> g) ∅ last_map.

(** [sorted(s.tolist())] *)
Definition sorted (l : list Z) : list Z := merge_sort Z.le l.

(** [ov.merge(forfeits_df, on="entry", how="left")]: every row of [ov], in
    order, once per matching row of [forfeits_df], and once with a missing
    [forfeits] cell when no row matches. *)
Definition merge_left_forfeits (ov : list (Entry * nat * list Z))
    (forfeits_df : list (Z * string)) : list OverviewRow :=
  ov ≫= λ '(en, t, g),
    match filter (λ n, n.1 = en_entry en) forfeits_df with
    | [] => [ {| o_entry := en; o_times_last := t; o_last_gws := g; o_forfeits := None |} ]
    | ms => (λ n, {| o_entry := en; o_times_last := t; o_last_gws := g;
                     o_forfeits := Some n.2 |}) <$> ms
    end.

(** The two left merges with the [groupby] series, which are indexed by
    [entry]: a row per row of [entries_df], in order, with a missing cell
    (NaN) where the series has no such index. *)
Definition merge_left_series (entries_df : list Entry)
    (times_last : gmap Z nat) (last_gws : gmap Z (list Z))
  : list (Entry * option nat * option (list Z)) :=
  (λ en, (en, times_last !! en_entry en, last_gws !! en_entry en)) <$> entries_df.

(** [ov["times_last"].fillna(0).astype(int)] *)
Definition fillna_times_last (ov : list (Entry * option nat * option (list Z)))
  : list (Entry * nat * option (list Z)) :=
  (λ '(en, t, g), (en, default 0%nat t, g)) <$> ov.

(** [ov["last_gws"].apply(lambda x: x if isinstance(x, list) else [])] *)
Definition listify_last_gws (ov : list (Entry * nat * option (list Z)))
  : list (Entry * nat * list Z) :=
  (λ '(en, t, g), (en, t, default [] g)) <$> ov.

(** [ov["forfeits"] = v]: the same cell in every row. *)
Definition assign_forfeits (ov : list (Entry * nat * list Z)) (v : string)
  : list OverviewRow :=
  (λ '(en, t, g), {| o_entry := en; o_times_last := t; o_last_gws := g;
                     o_forfeits := Some v |}) <$> ov.

(** [merge_overview].  [forfeits_df] is [None] for Python's [None]; the
    test [forfeits_df is not None and not forfeits_df.empty] holds for a
    frame with at least one row. *)
Definition merge_overview (entries_df : list Entry) (last_df : list LastRow)
    (forfeits_df : option (list (Z * string))) : list OverviewRow :=
  let last_map := last_expanded last_df in
  let times_last := length <$> groupby_entry last_map in
  let last_gws := sorted <$> groupby_entry last_map in
  let ov := merge_left_series entries_df times_last last_gws in
  let ov := fillna_times_last ov in
  let ov := listify_last_gws ov in
  match forfeits_df with
  | Some (n :: ns) => merge_left_forfeits ov (n :: ns)
  | _ => assign_forfeits ov ""
  end.

(** ** The same two functions over a store of objects

    The frames and the dict are Python objects, passed by reference and
    mutable.  To state what a call does to its arguments, the functions
    are run over a store: a list of objects, a reference being an index.
    [DataFrame.merge], [df[mask]] and [pd.DataFrame(...)] build a new
    object; [ov[col] = ...] assigns a column of the object [ov] refers to,
    in place. *)

Inductive PyObject :=
  | OGwPoints (rows : list GwPoints)
  | OEntries (rows : list Entry)
  | OOverrides (d : gmap Z Override)
  | OLast (rows : list LastRow)
  | OForfeits (rows : list (Z * string))
  (* [ov] after the two left merges, and after each column assignment *)
  | OMerged (rows : list (Entry * option nat * option (list Z)))
  | OFilled (rows : list (Entry * nat * option (list Z)))
  | OListed (rows : list (Entry * nat * list Z))
  | OOverview (rows : list OverviewRow).

Abbreviation Store := (list PyObject).

(** A computation over the store; [None] is a type error (a reference to
    an object of another kind, or to no object). *)
Definition Py (A : Type) : Type := Store → option (A * Store).

Definition py_ret {A} (a : A) : Py A := λ h, Some (a, h).
Definition py_bind {A B} (c : Py A) (k : A → Py B) : Py B :=
  λ h, match c h with
       | Some (a, h') => k a h'
       | None => None
       end.
Definition py_fail {A} : Py A := λ _, None.

Notation "'let!' x ':=' c 'in' k" := (py_bind c (λ x, k))
  (at level 10, x pattern, c at level 100, k at level 200).

(** A new object: stored at the first unused reference. *)
Definition py_new (o : PyObject) : Py nat := λ h, Some (length h, h ++ [o]).
Definition py_read (l : nat) : Py PyObject := λ h, (λ o, (o, h)) <$> h !! l.
(** An assignment in place: the object at [l] is replaced. *)
Definition py_write (l : nat) (o : PyObject) : Py unit :=
  λ h, if decide (l < length h)%nat then Some (tt, <[l := o]> h) else None.

Definition read_gw_points (l : nat) : Py (list GwPoints) :=
  let! o := py_read l in match o with OGwPoints r => py_ret r | _ => py_fail end.
Definition read_entries (l : nat) : Py (list Entry) :=
  let! o := py_read l in match o with OEntries r => py_ret r | _ => py_fail end.
Definition read_overrides (l : nat) : Py (gmap Z Override) :=
  let! o := py_read l in match o with OOverrides d => py_ret d | _ => py_fail end.
Definition read_last (l : nat) : Py (list LastRow) :=
  let! o := py_read l in match o with OLast r => py_ret r | _ => py_fail end.
Definition read_forfeits (l : nat) : Py (list (Z * string)) :=
  let! o := py_read l in match o with OForfeits r => py_ret r | _ => py_fail end.

(** A [for] loop over a list, threading the local state [acc]. *)
Fixpoint py_for {A} (xs : list Z) (body : A → Z → Py A) (acc : A) : Py A :=
  match xs with
  | [] => py_ret acc
  | x :: xs => let! acc := body acc x in py_for xs body acc
  end.

(** [compute_last_by_gw] over the store: every turn of the loop reads the
    frame and the dict through their references; [sub], [last_entries] and
    [out] are new local values; the result is a new frame. *)
Definition compute_last_by_gw_st (gw_points_df : nat) (gw_from gw_to : Z)
    (overrides : nat) : Py nat :=
  let! out :=
    py_for (py_range gw_from (gw_to + 1))
      (λ out gw,
         let! df := read_gw_points gw_points_df in
         let! ovs := read_overrides overrides in
         py_ret (out ++ [round_row df ovs gw]))
      [] in
  py_new (OLast out).

(** [merge_overview] over the store.  [ov] is the new frame the merges
    build; the two column assignments and [ov["forfeits"] = ""] change that
    frame in place; the merge with [forfeits_df] builds another new frame,
    to which [ov] is rebound. *)
Definition merge_overview_st (entries_df last_df : nat) (forfeits_df : option nat)
  : Py nat :=
  let! last_rows := read_last last_df in
  let last_map := last_expanded last_rows in
  let times_last := length <$> groupby_entry last_map in
  let last_gws := sorted <$> groupby_entry last_map in
  let! entries := read_entries entries_df in
  let! ov := py_new (OMerged (merge_left_series entries times_last last_gws)) in
  let! o := py_read ov in
  let! _ := match o with
            | OMerged rows => py_write ov (OFilled (fillna_times_last rows))
            | _ => py_fail
            end in
  let! o := py_read ov in
  let! _ := match o with
            | OFilled rows => py_write ov (OListed (listify_last_gws rows))
            | _ => py_fail
            end in
  let! notes := match forfeits_df with
                | Some l => let! n := read_forfeits l in py_ret (Some n)
                | None => py_ret None
                end in
  let! o := py_read ov in
  match o with
  | OListed rows =>
      match notes with
      | Some (n :: ns) => py_new (OOverview (merge_left_forfeits rows (n :: ns)))
      | _ => let! _ := py_write ov (OOverview (assign_forfeits rows "")) in py_ret ov
      end
  | _ => py_fail
  end.

(** The contents of an optional frame of notes in a store. *)
Definition forfeits_in (h : Store) (forfeits_df : option nat)
    (notes : option (list (Z * string))) : Prop :=
  match forfeits_df, notes with
  | Some l, Some n => h !! l = Some (OForfeits n)
  | None, None => True
  | _, _ => False
  end.

(** Every object of [h] is the same object, with the same contents, in [h']. *)
Definition store_kept (h h' : Store) : Prop :=
  ∀ l o, h !! l = Some o → h' !! l = Some o.

(** A call that changes no object of the store and returns a reference to
    a new object of contents [v]. *)
Definition returns_new (c : Py nat) (h : Store) (v : PyObject) : Prop :=
  ∃ l h', c h = Some (l, h') ∧ h !! l = None ∧ h' !! l = Some v ∧ store_kept h h'.

(** Two calls in a row: both return, the two results have the contents
    [v], and every object of the first store is unchanged at the end. *)
Definition twice_same (c : Py nat) (h : Store) (v : PyObject) : Prop :=
  ∃ l1 h1 l2 h2,
    c h = Some (l1, h1) ∧ c h1 = Some (l2, h2) ∧ l1 ≠ l2 ∧
    h2 !! l1 = Some v ∧ h2 !! l2 = Some v ∧ store_kept h h2.

(** ** Vocabulary of the properties *)

(** The rows [last_expanded] derives from one row of [last_df]. *)
Definition expand_row (row : LastRow) : list (Z * Z) :=
  if reason_excluded (lr_reason row) then []
  else (λ e, (e, lr_event row)) <$> lr_last_entries row.

(** The events [last_map] pairs with an entry, in row order. *)
Definition events_of (last_map : list (Z * Z)) (e : Z) : list Z :=
  (filter (λ p, p.1 = e) last_map).*2.

(** The rows of [last_df] in which an entry finished last: the reason is
    [None] and the entry is among [last_entries]. *)
Definition rounds_last (last_df : list LastRow) (e : Z) : list LastRow :=
  filter (λ row, lr_reason row = None ∧ e ∈ lr_last_entries row) last_df.

(** [forfeits_df] holds at most one row per entry (the table it is read
    from has the primary key [(league_id, entry)]). *)
Definition unique_notes (forfeits_df : option (list (Z * string))) : Prop :=
  match forfeits_df with
  | Some notes => NoDup notes.*1
  | None => True
  end.

(** The first note [forfeits_df] holds for an entry. *)
Definition note_of (notes : list (Z * string)) (e : Z) : option string :=
  snd <$> head (filter (λ n, n.1 = e) notes).

(** The [forfeits] cell of an entry, when [forfeits_df] has at most one
    row per entry. *)
Definition forfeits_cell (forfeits_df : option (list (Z * string))) (e : Z)
  : option string :=
  match forfeits_df with
  | Some (n :: ns) => note_of (n :: ns) e
  | _ => Some ""
  end.

(** ** Persistence: the tables [forfeits] and [overrides]

    A table with a primary key is a finite map from the key to the other
    columns: [forfeits] from [(league_id, entry)] to the text [forfeits],
    [overrides] from [(league_id, event)] to [(action, note)].
    [INSERT OR REPLACE] is the insertion into the map and [DELETE] on the
    key its deletion.  The only writer of [forfeits] is [save_forfeits],
    which writes a text; [note] may be NULL ([None]); the column
    [updated_at] is never read. *)
Record Db := {
  t_forfeits : gmap (Z * Z) string;
  t_overrides : gmap (Z * Z) (string * option string)
}.

(** The tables [get_db] creates when [forfeits.db] does not hold them. *)
Definition empty_db : Db := {| t_forfeits := ∅; t_overrides := ∅ |}.

(** [CHECK(action IN ('none','skip','eject'))] *)
Definition check_action (action : string) : Prop :=
  action ∈ ["none"; "skip"; "eject"].

(** A statement that writes [overrides] commits or raises
    [sqlite3.IntegrityError], in which case nothing is written. *)
Inductive DbResult := Committed (db : Db) | IntegrityError.

(** [load_forfeits]: the rows [(entry, forfeits)] of the league, in the
    order the table yields them. *)
Definition load_forfeits (db : Db) (league_id : Z) : list (Z * string) :=
  (λ r, (r.1.2, r.2)) <$> filter (λ r, r.1.1 = league_id) (map_to_list (t_forfeits db)).

(** [str(r.forfeits)]: the text itself, and ["nan"] for a missing cell. *)
Definition py_str_cell (c : option string) : string := default "nan" c.

(** [save_forfeits]: nothing for an empty frame; else one
    [INSERT OR REPLACE] per row of [df], in order. *)
Definition save_forfeits (db : Db) (league_id : Z) (df : list (Z * option string)) : Db :=
  match df with
  | [] => db
  | _ :: _ =>
      {| t_forfeits :=
           foldl (λ t r, <[(league_id, r.1) := py_str_cell r.2]> t) (t_forfeits db) df;
         t_overrides := t_overrides db |}
  end.

(** [load_overrides]: the dict comprehension over the rows of the league,
    [int(r.event)] to [{"action": r.action, "note": (r.note or "")}]. *)
Definition load_overrides (db : Db) (league_id : Z) : gmap Z Override :=
  foldl (λ d r, <[r.1.2 := {| ov_action := r.2.1; ov_note := default "" r.2.2 |}]> d) ∅
        (filter (λ r, r.1.1 = league_id) (map_to_list (t_overrides db))).

(** [set_override]: the row replaces the one of the same league and event;
    an action outside the three of the [CHECK] constraint is refused. *)
Definition set_override (db : Db) (league_id event : Z) (action note : string) : DbResult :=
  if decide (check_action action)
  then Committed {| t_forfeits := t_forfeits db;
                    t_overrides := <[(league_id, event) := (action, Some note)]> (t_overrides db) |}
  else IntegrityError.

(** [clear_override] *)
Definition clear_override (db : Db) (league_id event : Z) : Db :=
  {| t_forfeits := t_forfeits db;
     t_overrides := delete (league_id, event) (t_overrides db) |}.

(** The [override_form] on submit: the radio value picks the action, any
    value other than ["None"] and ["Skip"] falls to ["eject"]. *)
Definition override_form_submit (db : Db) (league_id ov_gw : Z)
    (ov_action ov_note : string) : DbResult :=
  if decide (ov_action = "None") then set_override db league_id ov_gw "none" ov_note
  else if decide (ov_action = "Skip") then set_override db league_id ov_gw "skip" ov_note
  else set_override db league_id ov_gw "eject" ov_note.

(** Every stored action satisfies the [CHECK] constraint. *)
Definition overrides_checked (db : Db) : Prop :=
  ∀ k a n, t_overrides db !! k = Some (a, n) → check_action a.

(** ** Fetching the league

    The two cached requests are functions of their arguments: the decoded
    JSON, or [None] when the request raises ([raise_for_status], a
    timeout).  Only the keys the code reads are kept. *)

(** An item of the list ["current"] of [/entry/{id}/history/]. *)
Record Current := {
  c_event : Z;
  c_points : Z;
  c_total_points : Z
}.

(** The history of an entry: [h_current] is [None] when the key
    ["current"] is absent. *)
Record History := { h_current : option (list Current) }.

(** The dict under ["league"]: a key that is absent is [None]. *)
Record LeagueInfo := {
  li_name : option string;
  li_start_event : option Z
}.

(** A page of [/leagues-classic/{id}/standings/]: [sp_league] is [None]
    when the key ["league"] is absent. *)
Record StandingsPage := {
  sp_league : option LeagueInfo;
  sp_results : list Entry;
  sp_has_next : bool
}.

(** The empty dict [{}]. *)
Definition no_league_info : LeagueInfo := {| li_name := None; li_start_event := None |}.

(** How a loop that fetches ends: with a value, with the exception of a
    request, or not within the given number of turns. *)
Inductive Fetched (A : Type) := Fetch_done (a : A) | Fetch_raised | Fetch_pending.
Global Arguments Fetch_done {A} a.
Global Arguments Fetch_raised {A}.
Global Arguments Fetch_pending {A}.

(** The [while True] loop of [get_all_entries], from page [page] with the
    locals [entries] and [league_info], for at most [fuel] turns. *)
Fixpoint get_all_entries_from (fuel : nat)
    (fetch_classic_league : Z → Z → option StandingsPage) (league_id page : Z)
    (entries : list Entry) (league_info : option LeagueInfo)
  : Fetched (list Entry * option LeagueInfo) :=
  match fuel with
  | O => Fetch_pending
  | S fuel =>
      match fetch_classic_league league_id page with
      | None => Fetch_raised
      | Some data =>
          let league_info :=
            match league_info with
            | None => Some (default no_league_info (sp_league data))
            | Some li => Some li
            end in
          let entries := entries ++ sp_results data in
          if sp_has_next data
          then get_all_entries_from fuel fetch_classic_league league_id (page + 1)
                 entries league_info
          else Fetch_done (entries, league_info)
      end
  end.

(** [get_all_entries]: the frame of the entries and [league_info]. *)
Definition get_all_entries (fuel : nat)
    (fetch_classic_league : Z → Z → option StandingsPage) (league_id : Z)
  : Fetched (list Entry * option LeagueInfo) :=
  get_all_entries_from fuel fetch_classic_league league_id 1 [] None.

(** The rows [build_gw_points] appends for one entry and its history. *)
Definition history_rows (entry_id : Z) (hist : History) : list GwPoints :=
  (λ c, {| gp_entry := entry_id; gp_event := c_event c;
           gp_gw_points := c_points c; gp_total_points := c_total_points c |})
    <$> default [] (h_current hist).

(** The loop of [build_gw_points] over the column [entry], with the local
    [rows]; [None] when a request raises. *)
Fixpoint build_rows (fetch_entry_history : Z → option History) (entry_ids : list Z)
    (rows : list GwPoints) : option (list GwPoints) :=
  match entry_ids with
  | [] => Some rows
  | entry_id :: rest =>
      match fetch_entry_history entry_id with
      | None => None
      | Some hist =>
          build_rows fetch_entry_history rest (rows ++ history_rows entry_id hist)
      end
  end.

(** [build_gw_points] *)
Definition build_gw_points (fetch_entry_history : Z → option History)
    (entries_df : list Entry) : option (list GwPoints) :=
  build_rows fetch_entry_history (en_entry <$> entries_df) [].

(** The rows of one entry in the frame [build_gw_points] returns. *)
Definition entry_rows (fetch_entry_history : Z → option History) (entry_id : Z)
  : list GwPoints :=
  from_option (history_rows entry_id) [] (fetch_entry_history entry_id).

(** ** The page: from the fetched frames to the overview *)

(** [Series.max()] *)
Definition series_max (s : list Z) : option Z :=
  match s with
  | [] => None
  | x :: xs => Some (foldr Z.max x xs)
  end.

(** [int(league_info.get("start_event", max(1, gw_points_df["event"].min())))],
    for a frame with a row. *)
Definition start_event (league_info : LeagueInfo) (gw_points_df : list GwPoints)
  : option Z :=
  (λ m, default (Z.max 1 m) (li_start_event league_info))
    <$> series_min (gp_event <$> gw_points_df).

(** [int(gw_points_df["event"].max())] *)
Definition latest_event (gw_points_df : list GwPoints) : option Z :=
  series_max (gp_event <$> gw_points_df).

(** What a run of the script shows: the frames of the page, or the
    warning before [st.stop()]. *)
Inductive Page :=
  | Shown (gw_points_df : list GwPoints) (last_df : list LastRow) (ov : list OverviewRow)
  | Stopped (warning : string).

(** The script from [# Load data] to the overview, without a submitted
    form: the frames are fetched, the store is read, the resolver runs
    from [start_event] to [latest_event] and the aggregator on its result. *)
Definition page (fuel : nat)
    (fetch_classic_league : Z → Z → option StandingsPage)
    (fetch_entry_history : Z → option History) (db : Db) (league_id : Z) : Fetched Page :=
  match get_all_entries fuel fetch_classic_league league_id with
  | Fetch_pending => Fetch_pending
  | Fetch_raised => Fetch_raised
  | Fetch_done (entries_df, league_info) =>
      match entries_df with
      | [] => Fetch_done (Stopped "No entries found for this league.")
      | _ :: _ =>
          match build_gw_points fetch_entry_history entries_df with
          | None => Fetch_raised
          | Some gw_points_df =>
              match start_event (default no_league_info league_info) gw_points_df,
                    latest_event gw_points_df with
              | Some start_event, Some latest_event =>
                  let forfeits_df := load_forfeits db league_id in
                  let overrides := load_overrides db league_id in
                  let last_df :=
                    compute_last_by_gw gw_points_df start_event latest_event overrides in
                  Fetch_done (Shown gw_points_df last_df
                                (merge_overview entries_df last_df (Some forfeits_df)))
              | _, _ => Fetch_done (Stopped "No gameweek data yet.")
              end
          end
      end
  end.

(** ** The resolver on a frame with missing points

    [c["points"]] may be null: the cell of [gw_points] is then missing
    (NaN), here [None].  [Series.min()] skips missing values and is missing
    when there is no other; [==] is false on a missing cell and against a
    missing minimum. *)

Record GwCell := {
  gc_entry : Z;
  gc_event : Z;
  gc_gw_points : option Z;
  gc_total_points : option Z
}.

(** A row without missing cell, as a row of such a frame. *)
Definition with_points (r : GwPoints) : GwCell :=
  {| gc_entry := gp_entry r; gc_event := gp_event r;
     gc_gw_points := Some (gp_gw_points r);
     gc_total_points := Some (gp_total_points r) |}.

(** [Series.min()], [skipna=True]. *)
Definition series_min_skipna (s : list (option Z)) : option Z :=
  series_min (omap id s).

(** [sub = gw_points_df[gw_points_df["event"] == gw]] *)
Definition rows_of_event_na (gw_points_df : list GwCell) (gw : Z) : list GwCell :=
  filter (λ r, gc_event r = gw) gw_points_df.

(** [sub[sub["gw_points"] == min_pts]["entry"].tolist()] *)
Definition entries_at_na (sub : list GwCell) (min_pts : option Z) : list Z :=
  gc_entry <$> filter (λ r, is_Some min_pts ∧ gc_gw_points r = min_pts) sub.

(** The body of the loop of [compute_last_by_gw] on such a frame. *)
Definition round_row_na (gw_points_df : list GwCell) (overrides : gmap Z Override)
    (gw : Z) : LastRow :=
  let sub := rows_of_event_na gw_points_df gw in
  match sub with
  | [] =>
      {| lr_event := gw; lr_min_points := None;
         lr_last_entries := []; lr_reason := Some NoData |}
  | _ :: _ =>
      let min_pts := series_min_skipna (gc_gw_points <$> sub) in
      let last_entries := entries_at_na sub min_pts in
      let '(last_entries, reason) := apply_override (overrides !! gw) last_entries in
      {| lr_event := gw; lr_min_points := min_pts;
         lr_last_entries := last_entries; lr_reason := reason |}
  end.

(** [compute_last_by_gw] on a frame whose points may be missing. *)
Definition compute_last_by_gw_na (gw_points_df : list GwCell) (gw_from gw_to : Z)
    (overrides : gmap Z Override) : list LastRow :=
  foldl (λ out gw, out ++ [round_row_na gw_points_df overrides gw]) []
        (py_range gw_from (gw_to + 1)).

(** ** The chronology tab *)

(** [label_map]: the dict comprehension over [entries_df], from [entry]
    to [f'{entry_name} ({player_name})']. *)
Definition entry_label (row : Entry) : string :=
  en_entry_name row +:+ " (" +:+ en_player_name row +:+ ")".
Definition label_map (entries_df : list Entry) : gmap Z string :=
  foldl (λ d row, <[en_entry row := entry_label row]> d) ∅ entries_df.

(** [sep.join(names)] *)
Fixpoint py_join (sep : string) (names : list string) : string :=
  match names with
  | [] => ""
  | [x] => x
  | x :: rest => x +:+ sep +:+ py_join sep rest
  end.

(** [label_map.get(e, str(e))] for every entry of a row. *)
Definition row_names (labels : gmap Z string) (r : LastRow) : list string :=
  (λ e, default (pretty e) (labels !! e)) <$> lr_last_entries r.

(** The [if]/[elif] chain that picks the tag of a row. *)
Definition chronology_tag (labels : gmap Z string) (r : LastRow) : string :=
  if decide (lr_reason r = Some Ejected) then "None (ejected)"
  else if decide (lr_reason r = Some Skipped) then "None (skipped)"
  else if decide (lr_reason r = Some NoData) then "None"
  else match lr_last_entries r with
       | [] => "None"
       | _ :: _ => py_join ", " (row_names labels r)
       end.

(** The order of [sort_values("event")]. *)
Definition event_le (r1 r2 : LastRow) : Prop := lr_event r1 ≤ lr_event r2.
Global Instance event_le_dec : RelDecision event_le.
Proof. intros r1 r2. unfold event_le. apply _. Defined.

(** [last_df.sort_values("event")], as a stable sort; on a frame with
    one row per event, as the resolver returns, every sort gives the same
    frame. *)
Definition sort_values_event (last_df : list LastRow) : list LastRow :=
  merge_sort event_le last_df.

(** The rows [{"GW": int(r["event"]), "Last": tag}] of [chrono].  The
    frame of the resolver without a row is [pd.DataFrame([])], which has no
    column: there [last_df.sort_values("event")] raises [KeyError]. *)
Definition chronology (entries_df : list Entry) (last_df : list LastRow)
  : Outcome (list (Z * string)) :=
  match last_df with
  | [] => Raised KeyError
  | _ :: _ =>
      Returned ((λ r, (lr_event r, chronology_tag (label_map entries_df) r))
                  <$> sort_values_event last_df)
  end.

(** ** Worked examples from the specification *)

Definition gp (e g p : Z) : GwPoints :=
  {| gp_entry := e; gp_event := g; gp_gw_points := p; gp_total_points := p |}.

Definition mk_entry (e : Z) (name : string) : Entry :=
  {| en_entry := e; en_entry_name := name; en_player_name := name |}.

Definition mk_last (g : Z) (m : option Z) (l : list Z) (r : option Reason) : LastRow :=
  {| lr_event := g; lr_min_points := m; lr_last_entries := l; lr_reason := r |}.

(** A league of three entries over the gameweeks 1 to 4: entry 2 is last
    in gameweeks 1 and 3 (with entry 1 in gameweek 3), gameweek 2 is
    skipped, gameweek 4 has no data; entry 5 is never last. *)
Definition league_entries : list Entry :=
  [mk_entry 1 "A"; mk_entry 2 "B"; mk_entry 5 "E"].
Definition league_points : list GwPoints :=
  [gp 1 1 30; gp 2 1 20; gp 5 1 40;
   gp 1 2 10; gp 2 2 50; gp 5 2 60;
   gp 1 3 25; gp 2 3 25; gp 5 3 70].
Definition league_overrides : gmap Z Override :=
  {[ 2 := {| ov_action := "skip"; ov_note := "void" |} ]}.
Definition league_last : list LastRow :=
  compute_last_by_gw league_points 1 4 league_overrides.
Definition league_notes : option (list (Z * string)) :=
  Some [(1, "owes a round"); (2, "cooks dinner"); (5, "")].

(** The league as objects: references 0 to 4. *)
Definition league_store : Store :=
  [OGwPoints league_points; OOverrides league_overrides; OEntries league_entries;
   OLast league_last; OForfeits (default [] league_notes)].

(** A store: two notes and a skipped gameweek for league 7, one note for
    league 8. *)
Definition league_db : Db :=
  {| t_forfeits := {[ (7, 1) := "owes a round"; (7, 2) := "cooks dinner";
                      (8, 1) := "other league" ]};
     t_overrides := {[ (7, 2) := ("skip", Some "void") ]} |}.

(** The requests of a league of three entries, on two pages; entry 5 has
    no ["current"] key in its history. *)
Definition league_pages : list StandingsPage :=
  [ {| sp_league := Some {| li_name := Some "Friends"; li_start_event := None |};
       sp_results := [mk_entry 1 "A"; mk_entry 2 "B"]; sp_has_next := true |};
    {| sp_league := None; sp_results := [mk_entry 5 "E"]; sp_has_next := false |} ].
Definition league_fetch_classic (league_id page : Z) : option StandingsPage :=
  if decide (league_id = 7) then
    if decide (1 ≤ page) then league_pages !! Z.to_nat (page - 1) else None
  else None.
Definition league_fetch_history (entry_id : Z) : option History :=
  if decide (entry_id = 1) then
    Some {| h_current := Some [ {| c_event := 1; c_points := 30; c_total_points := 30 |};
                                {| c_event := 2; c_points := 10; c_total_points := 40 |} ] |}
  else if decide (entry_id = 2) then
    Some {| h_current := Some [ {| c_event := 1; c_points := 20; c_total_points := 20 |};
                                {| c_event := 2; c_points := 50; c_total_points := 70 |} ] |}
  else if decide (entry_id = 5) then Some {| h_current := None |}
  else None.

(** The frame [build_gw_points] returns for these requests. *)
Definition league_fetched : list GwPoints :=
  [ {| gp_entry := 1; gp_event := 1; gp_gw_points := 30; gp_total_points := 30 |};
    {| gp_entry := 1; gp_event := 2; gp_gw_points := 10; gp_total_points := 40 |};
    {| gp_entry := 2; gp_event := 1; gp_gw_points := 20; gp_total_points := 20 |};
    {| gp_entry := 2; gp_event := 2; gp_gw_points := 50; gp_total_points := 70 |} ].

Example round5_ties :
  compute_last_by_gw [gp 1 5 10; gp 2 5 5; gp 3 5 5; gp 4 5 20] 5 5 ∅
  = [ {| lr_event := 5; lr_min_points := Some 5;
         lr_last_entries := [2; 3]; lr_reason := None |} ].
Proof. reflexivity. Qed.

Example round6_no_data :
  compute_last_by_gw [gp 1 5 10] 6 6 ∅
  = [ {| lr_event := 6; lr_min_points := None;
         lr_last_entries := []; lr_reason := Some NoData |} ].
Proof. reflexivity. Qed.

(** ** The resolver returns one row per gameweek *)

Section resolver.
Context (gw_points_df : list GwPoints) (overrides : gmap Z Override).

Lemma foldl_snoc_fmap {A B} (f : A → B) (xs : list A) (acc : list B) :
  foldl (λ out x, out ++ [f x]) acc xs = acc ++ (f <$> xs).
Proof.
  revert acc. induction xs as [|x xs IH]; intros acc; simpl.
  - by rewrite app_nil_r.
  - by rewrite IH, <- app_assoc.
Qed.

(** The loop is a map over the range. *)
Lemma compute_last_by_gw_fmap gw_from gw_to :
  compute_last_by_gw gw_points_df gw_from gw_to overrides
  = round_row gw_points_df overrides <$> py_range gw_from (gw_to + 1).
Proof. unfold compute_last_by_gw. by rewrite foldl_snoc_fmap. Qed.

Lemma round_row_event gw : lr_event (round_row gw_points_df overrides gw) = gw.
Proof.
  unfold round_row. destruct (rows_of_event gw_points_df gw); [done|].
  by destruct (apply_override _ _).
Qed.

Lemma events_compute_last_by_gw gw_from gw_to :
  lr_event <$> compute_last_by_gw gw_points_df gw_from gw_to overrides
  = py_range gw_from (gw_to + 1).
Proof.
  rewrite compute_last_by_gw_fmap, <- list_fmap_compose.
  rewrite <- (list_fmap_id (py_range _ _)) at 2.
  apply list_fmap_ext. intros _ gw _. apply round_row_event.
Qed.

Lemma elem_of_py_range lo hi k : k ∈ py_range lo hi ↔ lo ≤ k < hi.
Proof. unfold py_range. rewrite elem_of_seqZ. lia. Qed.

Lemma filter_fmap_none {A} (P : A → Prop) `{∀ x, Decision (P x)} (l : list A) :
  (∀ x, x ∈ l → ¬ P x) → filter P l = [].
Proof.
  induction l as [|x l IH]; intros Hl; [done|].
  rewrite filter_cons_False by (apply Hl; left).
  apply IH. intros y Hy. apply Hl. by right.
Qed.

(** The rows of the result for one gameweek of the range: exactly one. *)
Lemma rows_for_event gw_from gw_to gw :
  gw_from ≤ gw ≤ gw_to →
  filter (λ r, lr_event r = gw)
         (compute_last_by_gw gw_points_df gw_from gw_to overrides)
  = [round_row gw_points_df overrides gw].
Proof.
  intros Hgw. rewrite compute_last_by_gw_fmap. unfold py_range.
  replace (gw_to + 1 - gw_from) with ((gw - gw_from) + (1 + (gw_to - gw))) by lia.
  rewrite seqZ_app by lia.
  rewrite (seqZ_app _ 1) by lia.
  rewrite (seqZ_cons _ 1), (seqZ_nil _ (Z.pred 1)) by lia.
  replace (gw_from + (gw - gw_from)) with gw by lia.
  rewrite !fmap_app, !filter_app. simpl.
  rewrite filter_cons_True by apply round_row_event.
  rewrite !filter_fmap_none; [done|..]; intros r Hr.
  all: try by apply elem_of_nil in Hr.
  all: apply list_elem_of_fmap in Hr as (k & -> & Hk); rewrite round_row_event;
    apply elem_of_seqZ in Hk; lia.
Qed.

Lemma elem_of_compute_last_by_gw gw_from gw_to res :
  res ∈ compute_last_by_gw gw_points_df gw_from gw_to overrides ↔
  gw_from ≤ lr_event res ≤ gw_to ∧ res = round_row gw_points_df overrides (lr_event res).
Proof.
  rewrite compute_last_by_gw_fmap, list_elem_of_fmap. split.
  - intros (gw & -> & Hgw%elem_of_py_range). rewrite round_row_event. split; [lia|done].
  - intros [Hgw Hres]. exists (lr_event res). split; [done|].
    apply elem_of_py_range. lia.
Qed.
End resolver.

(** ** The minimum and the entries at the minimum *)

Lemma foldr_min_le (x : Z) (xs : list Z) :
  foldr Z.min x xs ≤ x ∧ ∀ y, y ∈ xs → foldr Z.min x xs ≤ y.
Proof.
  induction xs as [|z xs [IH1 IH2]]; simpl.
  - split; [lia|]. intros y Hy. by apply elem_of_nil in Hy.
  - split; [lia|]. intros y [->|Hy]%elem_of_cons; [lia|].
    specialize (IH2 y Hy). lia.
Qed.

Lemma foldr_min_elem (x : Z) (xs : list Z) : foldr Z.min x xs ∈ x :: xs.
Proof.
  induction xs as [|z xs IH]; simpl; [left|].
  destruct (Z.min_spec z (foldr Z.min x xs)) as [[_ ->]|[_ ->]].
  - right; left.
  - apply elem_of_cons in IH as [->|IH]; [left|right; by right].
Qed.

(** [Series.min()] of a series with a value: a value of the series, below
    every value of the series. *)
Lemma series_min_spec (s : list Z) (m : Z) :
  series_min s = Some m ↔ m ∈ s ∧ ∀ y, y ∈ s → m ≤ y.
Proof.
  destruct s as [|x xs]; simpl.
  - split; [done|]. intros [[]%elem_of_nil _].
  - split.
    + intros [= <-]. split; [apply foldr_min_elem|].
      pose proof (foldr_min_le x xs) as [Hx Hxs].
      intros y [->|Hy]%elem_of_cons; [done|by apply Hxs].
    + intros [Hm Hle]. f_equal.
      pose proof (foldr_min_elem x xs) as Hin.
      pose proof (foldr_min_le x xs) as [Hx Hxs].
      specialize (Hle _ Hin).
      apply elem_of_cons in Hm as [Hm|Hm]; [lia|].
      specialize (Hxs _ Hm). lia.
Qed.

Lemma series_min_is_Some (s : list Z) : s ≠ [] → is_Some (series_min s).
Proof. destruct s; [done|]. by eexists. Qed.

Lemma elem_of_rows_of_event (gw_points_df : list GwPoints) (gw : Z) (r : GwPoints) :
  r ∈ rows_of_event gw_points_df gw ↔ r ∈ gw_points_df ∧ gp_event r = gw.
Proof. unfold rows_of_event. rewrite list_elem_of_filter. tauto. Qed.

(** The row of a gameweek without scores, whatever the overrides say. *)
Lemma round_row_no_data (gw_points_df : list GwPoints) (overrides : gmap Z Override) (gw : Z) :
  (∀ r, r ∈ gw_points_df → gp_event r ≠ gw) →
  round_row gw_points_df overrides gw
  = {| lr_event := gw; lr_min_points := None;
       lr_last_entries := []; lr_reason := Some NoData |}.
Proof.
  intros Hno. unfold round_row.
  destruct (rows_of_event gw_points_df gw) as [|r sub] eqn:Hsub; [done|].
  assert (r ∈ rows_of_event gw_points_df gw) as Hr by (rewrite Hsub; left).
  apply elem_of_rows_of_event in Hr as [Hr1 Hr2]. by destruct (Hno r Hr1).
Qed.

(** The row of a gameweek with scores. *)
Lemma round_row_data (gw_points_df : list GwPoints) (overrides : gmap Z Override)
    (gw : Z) (r0 : GwPoints) :
  r0 ∈ gw_points_df → gp_event r0 = gw →
  ∃ m, series_min (gp_gw_points <$> rows_of_event gw_points_df gw) = Some m ∧
       round_row gw_points_df overrides gw
       = {| lr_event := gw; lr_min_points := Some m;
            lr_last_entries :=
              (apply_override (overrides !! gw)
                 (entries_at (rows_of_event gw_points_df gw) (Some m))).1;
            lr_reason :=
              (apply_override (overrides !! gw)
                 (entries_at (rows_of_event gw_points_df gw) (Some m))).2 |}.
Proof.
  intros Hr0 Hev.
  assert (r0 ∈ rows_of_event gw_points_df gw) as Hin by by apply elem_of_rows_of_event.
  unfold round_row.
  destruct (rows_of_event gw_points_df gw) as [|r sub] eqn:Hsub;
    [by apply elem_of_nil in Hin|].
  destruct (series_min_is_Some (gp_gw_points <$> r :: sub)) as [m Hm]; [done|].
  exists m. split; [done|]. rewrite Hm.
  by destruct (apply_override _ _).
Qed.

(** The minimum the resolver reports is the least [gw_points] of the gameweek. *)
Lemma min_of_event (gw_points_df : list GwPoints) (gw m : Z) :
  series_min (gp_gw_points <$> rows_of_event gw_points_df gw) = Some m ↔
  (∃ r, r ∈ gw_points_df ∧ gp_event r = gw ∧ gp_gw_points r = m) ∧
  (∀ r, r ∈ gw_points_df → gp_event r = gw → m ≤ gp_gw_points r).
Proof.
  rewrite series_min_spec. setoid_rewrite list_elem_of_fmap.
  setoid_rewrite elem_of_rows_of_event. split.
  - intros [(r & -> & Hr & Hev) Hle]. split; [by exists r|].
    intros r' Hr' Hev'. apply Hle. by exists r'.
  - intros [(r & Hr & Hev & <-) Hle]. split; [by exists r|].
    intros y (r' & -> & Hr' & Hev'). by apply Hle.
Qed.

Lemma elem_of_entries_at (gw_points_df : list GwPoints) (gw m e : Z) :
  e ∈ entries_at (rows_of_event gw_points_df gw) (Some m) ↔
  ∃ r, r ∈ gw_points_df ∧ gp_event r = gw ∧ gp_entry r = e ∧ gp_gw_points r = m.
Proof.
  unfold entries_at. rewrite list_elem_of_fmap.
  setoid_rewrite list_elem_of_filter. setoid_rewrite elem_of_rows_of_event. split.
  - intros (r & -> & [= Hm] & Hr & Hev). by exists r.
  - intros (r & Hr & Hev & <- & <-). by exists r.
Qed.

(** The entries at the minimum, as one filter of the whole frame. *)
Lemma entries_at_filter (gw_points_df : list GwPoints) (gw m : Z) :
  entries_at (rows_of_event gw_points_df gw) (Some m)
  = gp_entry <$> filter (λ r, gp_event r = gw ∧ gp_gw_points r = m) gw_points_df.
Proof.
  unfold entries_at, rows_of_event. f_equal.
  rewrite list_filter_filter. apply list_filter_iff.
  intros r. split.
  - by intros [[= ->] ->].
  - by intros [-> ->].
Qed.

Lemma apply_override_none (last_entries : list Z) :
  apply_override None last_entries = (last_entries, None).
Proof. done. Qed.

(** Every action other than the two the resolver tests for leaves the
    computed entries in place. *)
Lemma apply_override_other (ov : Override) (last_entries : list Z) :
  ov_action ov ≠ "eject" → ov_action ov ≠ "skip" →
  apply_override (Some ov) last_entries = (last_entries, None).
Proof. intros. unfold apply_override. by rewrite !decide_False. Qed.

Lemma round_row_delete_other (gw_points_df : list GwPoints) (overrides : gmap Z Override)
    (g : Z) (ov : Override) (gw : Z) :
  overrides !! g = Some ov → ov_action ov ≠ "eject" → ov_action ov ≠ "skip" →
  round_row gw_points_df overrides gw = round_row gw_points_df (delete g overrides) gw.
Proof.
  intros Hov He Hs. unfold round_row.
  destruct (rows_of_event gw_points_df gw); [done|].
  destruct (decide (g = gw)) as [->|Hne].
  - by rewrite lookup_delete_eq, Hov, apply_override_other.
  - by rewrite lookup_delete_ne.
Qed.

(** An override whose action is neither ["eject"] nor ["skip"] changes no
    row of the result. *)
Lemma compute_last_by_gw_delete_other (gw_points_df : list GwPoints) (gw_from gw_to : Z)
    (overrides : gmap Z Override) (g : Z) (ov : Override) :
  overrides !! g = Some ov → ov_action ov ≠ "eject" → ov_action ov ≠ "skip" →
  compute_last_by_gw gw_points_df gw_from gw_to overrides
  = compute_last_by_gw gw_points_df gw_from gw_to (delete g overrides).
Proof.
  intros. rewrite !compute_last_by_gw_fmap. apply list_fmap_ext.
  intros _ gw _. by eapply round_row_delete_other.
Qed.

Lemma Sorted_seqZ (m n : Z) : Sorted Z.lt (seqZ m n).
Proof.
  remember (Z.to_nat n) as k eqn:Hk. revert m n Hk.
  induction k as [|k IH]; intros m n Hk.
  - rewrite seqZ_nil by lia. constructor.
  - rewrite seqZ_cons by lia. constructor; [apply IH; lia|].
    destruct (decide (0 < Z.pred n)) as [Hpos|Hneg].
    + rewrite seqZ_cons by lia. constructor. lia.
    + rewrite seqZ_nil by lia. constructor.
Qed.

(** ** Claims about the resolver *)

(** C1. A gameweek of the range with at least one score and no override,
    or an override of action ["none"], has exactly one row in the result;
    its [min_points] is the least [gw_points] of the gameweek, its
    [last_entries] are the entries of exactly the rows of the gameweek
    whose [gw_points] is that minimum (every tie is kept), and its
    [reason] is [None]. *)
Theorem resolver_minimum_and_ties (gw_points_df : list GwPoints) (gw_from gw_to : Z)
    (overrides : gmap Z Override) (g : Z) :
  gw_from ≤ g ≤ gw_to →
  (∃ r, r ∈ gw_points_df ∧ gp_event r = g) →
  (overrides !! g = None ∨ ∃ ov, overrides !! g = Some ov ∧ ov_action ov = "none") →
  ∃ res m,
    filter (λ r, lr_event r = g)
           (compute_last_by_gw gw_points_df gw_from gw_to overrides) = [res] ∧
    lr_min_points res = Some m ∧
    (∃ r, r ∈ gw_points_df ∧ gp_event r = g ∧ gp_gw_points r = m) ∧
    (∀ r, r ∈ gw_points_df → gp_event r = g → m ≤ gp_gw_points r) ∧
    (∀ e, e ∈ lr_last_entries res ↔
          ∃ r, r ∈ gw_points_df ∧ gp_event r = g ∧ gp_entry r = e ∧ gp_gw_points r = m) ∧
    lr_last_entries res
    = gp_entry <$> filter (λ r, gp_event r = g ∧ gp_gw_points r = m) gw_points_df ∧
    lr_reason res = None.
Proof.
  intros Hg (r0 & Hr0 & Hev0) Hov.
  destruct (round_row_data gw_points_df overrides g r0 Hr0 Hev0) as (m & Hm & Hrow).
  assert (apply_override (overrides !! g)
            (entries_at (rows_of_event gw_points_df g) (Some m))
          = (entries_at (rows_of_event gw_points_df g) (Some m), None)) as Hap.
  { destruct Hov as [->|(ov & -> & Hact)]; [done|].
    apply apply_override_other; by rewrite Hact. }
  rewrite Hap in Hrow. simpl in Hrow.
  exists (round_row gw_points_df overrides g), m.
  split; [by apply rows_for_event|].
  rewrite Hrow. simpl.
  apply min_of_event in Hm as [Hex Hle].
  split_and!; [done|done|done| |apply entries_at_filter|done].
  intros e. apply elem_of_entries_at.
Qed.

Lemma resolver_minimum_and_ties_witness :
  ∃ res m,
    filter (λ r, lr_event r = 5)
           (compute_last_by_gw [gp 1 5 10; gp 2 5 5; gp 3 5 5; gp 4 5 20] 5 5 ∅) = [res] ∧
    lr_min_points res = Some m ∧
    (∃ r, r ∈ [gp 1 5 10; gp 2 5 5; gp 3 5 5; gp 4 5 20] ∧ gp_event r = 5 ∧ gp_gw_points r = m) ∧
    (∀ r, r ∈ [gp 1 5 10; gp 2 5 5; gp 3 5 5; gp 4 5 20] → gp_event r = 5 → m ≤ gp_gw_points r) ∧
    (∀ e, e ∈ lr_last_entries res ↔
          ∃ r, r ∈ [gp 1 5 10; gp 2 5 5; gp 3 5 5; gp 4 5 20] ∧ gp_event r = 5 ∧
               gp_entry r = e ∧ gp_gw_points r = m) ∧
    lr_last_entries res
    = gp_entry <$> filter (λ r, gp_event r = 5 ∧ gp_gw_points r = m)
                          [gp 1 5 10; gp 2 5 5; gp 3 5 5; gp 4 5 20] ∧
    lr_reason res = None.
Proof.
  apply (resolver_minimum_and_ties [gp 1 5 10; gp 2 5 5; gp 3 5 5; gp 4 5 20] 5 5 ∅ 5).
  - lia.
  - exists (gp 1 5 10). split; [left|reflexivity].
  - left. reflexivity.
Defined.

(** C2, as stated, fails: gameweek 7 has no score, the override for it has
    action ["eject"], and the row of gameweek 7 has the reason ['no-data'],
    not ['ejected']. *)
Lemma eject_without_scores_counterexample :
  ∃ res,
    filter (λ r, lr_event r = 7)
           (compute_last_by_gw [gp 1 6 10; gp 2 6 5] 6 7
              {[ 7 := {| ov_action := "eject"; ov_note := "" |} ]}) = [res] ∧
    lr_last_entries res = [] ∧
    lr_reason res = Some NoData ∧
    lr_reason res ≠ Some Ejected.
Proof. eexists. split; [reflexivity|]. by split_and!. Qed.

(** C2, amended.  For a gameweek of the range that has at least one score,
    an override of action ["eject"] gives the row an empty [last_entries]
    and the reason ['ejected'], and one of action ["skip"] an empty
    [last_entries] and the reason ['skipped'], whatever the scores are.
    For every gameweek, an override of action ["none"] gives the same
    result as no entry for that gameweek in [overrides]. *)
Theorem override_precedence (gw_points_df : list GwPoints) (gw_from gw_to : Z)
    (overrides : gmap Z Override) (g : Z) (ov : Override) :
  overrides !! g = Some ov →
  (gw_from ≤ g ≤ gw_to → (∃ r, r ∈ gw_points_df ∧ gp_event r = g) →
     (ov_action ov = "eject" →
        ∃ res, filter (λ r, lr_event r = g)
                 (compute_last_by_gw gw_points_df gw_from gw_to overrides) = [res] ∧
               lr_last_entries res = [] ∧ lr_reason res = Some Ejected) ∧
     (ov_action ov = "skip" →
        ∃ res, filter (λ r, lr_event r = g)
                 (compute_last_by_gw gw_points_df gw_from gw_to overrides) = [res] ∧
               lr_last_entries res = [] ∧ lr_reason res = Some Skipped)) ∧
  (ov_action ov = "none" →
     compute_last_by_gw gw_points_df gw_from gw_to overrides
     = compute_last_by_gw gw_points_df gw_from gw_to (delete g overrides)).
Proof.
  intros Hov. split.
  - intros Hg (r0 & Hr0 & Hev0).
    destruct (round_row_data gw_points_df overrides g r0 Hr0 Hev0) as (m & Hm & Hrow).
    rewrite Hov in Hrow. unfold apply_override in Hrow.
    split; intros Hact; exists (round_row gw_points_df overrides g);
      (split; [by apply rows_for_event|]);
      rewrite Hrow, Hact; by simpl.
  - intros Hact. eapply compute_last_by_gw_delete_other; [done|..]; by rewrite Hact.
Qed.

Lemma override_precedence_witness :
  (∃ res, filter (λ r, lr_event r = 7)
            (compute_last_by_gw [gp 1 7 10; gp 2 7 5] 7 7
               {[ 7 := {| ov_action := "eject"; ov_note := "" |} ]}) = [res] ∧
          lr_last_entries res = [] ∧ lr_reason res = Some Ejected) ∧
  (∃ res, filter (λ r, lr_event r = 7)
            (compute_last_by_gw [gp 1 7 10; gp 2 7 5] 7 7
               {[ 7 := {| ov_action := "skip"; ov_note := "" |} ]}) = [res] ∧
          lr_last_entries res = [] ∧ lr_reason res = Some Skipped) ∧
  compute_last_by_gw [gp 1 7 10; gp 2 7 5] 7 7
    {[ 7 := {| ov_action := "none"; ov_note := "checked" |} ]}
  = compute_last_by_gw [gp 1 7 10; gp 2 7 5] 7 7
      (delete 7 {[ 7 := {| ov_action := "none"; ov_note := "checked" |} ]}).
Proof.
  split_and!.
  - apply (override_precedence [gp 1 7 10; gp 2 7 5] 7 7
             {[ 7 := {| ov_action := "eject"; ov_note := "" |} ]} 7
             {| ov_action := "eject"; ov_note := "" |});
      [reflexivity|lia| |reflexivity].
    exists (gp 1 7 10). split; [left|reflexivity].
  - apply (override_precedence [gp 1 7 10; gp 2 7 5] 7 7
             {[ 7 := {| ov_action := "skip"; ov_note := "" |} ]} 7
             {| ov_action := "skip"; ov_note := "" |});
      [reflexivity|lia| |reflexivity].
    exists (gp 1 7 10). split; [left|reflexivity].
  - apply (override_precedence [gp 1 7 10; gp 2 7 5] 7 7
             {[ 7 := {| ov_action := "none"; ov_note := "checked" |} ]} 7
             {| ov_action := "none"; ov_note := "checked" |});
      reflexivity.
Defined.

(** C4. A gameweek of the range without any score has exactly one row in
    the result: [min_points] is [None], [last_entries] is empty and the
    reason is ['no-data'] (whatever [overrides] holds for it). *)
Theorem resolver_no_data (gw_points_df : list GwPoints) (gw_from gw_to : Z)
    (overrides : gmap Z Override) (g : Z) :
  gw_from ≤ g ≤ gw_to →
  (∀ r, r ∈ gw_points_df → gp_event r ≠ g) →
  filter (λ r, lr_event r = g)
         (compute_last_by_gw gw_points_df gw_from gw_to overrides)
  = [ {| lr_event := g; lr_min_points := None;
         lr_last_entries := []; lr_reason := Some NoData |} ].
Proof.
  intros Hg Hno. rewrite rows_for_event by done. by rewrite round_row_no_data.
Qed.

Lemma resolver_no_data_witness :
  filter (λ r, lr_event r = 6)
         (compute_last_by_gw [gp 1 5 10; gp 2 5 5] 5 6
            {[ 6 := {| ov_action := "skip"; ov_note := "void" |} ]})
  = [ {| lr_event := 6; lr_min_points := None;
         lr_last_entries := []; lr_reason := Some NoData |} ].
Proof.
  apply (resolver_no_data [gp 1 5 10; gp 2 5 5] 5 6
           {[ 6 := {| ov_action := "skip"; ov_note := "void" |} ]} 6).
  - lia.
  - intros r Hr. repeat (apply elem_of_cons in Hr as [->|Hr]; [by vm_compute|]).
    by apply elem_of_nil in Hr.
Defined.

(** C5, as stated, fails: the override of gameweek 5 has the action
    ["bogus"], and the call returns the row the scores give, as it does for
    ["none"]; nothing is raised. *)
Lemma unknown_action_counterexample :
  call_compute_last_by_gw [gp 1 5 10; gp 2 5 5] 5 5
    {[ 5 := {| ov_action := "bogus"; ov_note := "" |} ]}
  = Returned [ {| lr_event := 5; lr_min_points := Some 5;
                  lr_last_entries := [2]; lr_reason := None |} ]
  ∧ call_compute_last_by_gw [gp 1 5 10; gp 2 5 5] 5 5
      {[ 5 := {| ov_action := "bogus"; ov_note := "" |} ]}
    = call_compute_last_by_gw [gp 1 5 10; gp 2 5 5] 5 5
        {[ 5 := {| ov_action := "none"; ov_note := "" |} ]}.
Proof. split; reflexivity. Qed.

(** C5, amended.  An override whose action is neither ["eject"] nor
    ["skip"] (["none"], or any text outside the three actions) is not
    rejected: the call returns, and its result is the result without an
    entry for that gameweek, which is also the result with the action
    replaced by ["none"]. *)
Theorem other_action_as_none (gw_points_df : list GwPoints) (gw_from gw_to : Z)
    (overrides : gmap Z Override) (g : Z) (ov : Override) :
  overrides !! g = Some ov →
  ov_action ov ≠ "eject" → ov_action ov ≠ "skip" →
  call_compute_last_by_gw gw_points_df gw_from gw_to overrides
  = Returned (compute_last_by_gw gw_points_df gw_from gw_to (delete g overrides))
  ∧ call_compute_last_by_gw gw_points_df gw_from gw_to overrides
    = call_compute_last_by_gw gw_points_df gw_from gw_to
        (<[ g := {| ov_action := "none"; ov_note := ov_note ov |} ]> overrides).
Proof.
  intros Hov He Hs. unfold call_compute_last_by_gw.
  rewrite (compute_last_by_gw_delete_other _ _ _ overrides g ov) by done.
  split; [done|]. f_equal.
  rewrite (compute_last_by_gw_delete_other _ _ _ (<[g:=_]> overrides) g
             {| ov_action := "none"; ov_note := ov_note ov |});
    [by rewrite delete_insert_eq|by rewrite lookup_insert_eq|done|done].
Qed.

Lemma other_action_as_none_witness :
  call_compute_last_by_gw [gp 1 5 10; gp 2 5 5] 5 5
    {[ 5 := {| ov_action := "Eject"; ov_note := "typo" |} ]}
  = Returned (compute_last_by_gw [gp 1 5 10; gp 2 5 5] 5 5
                (delete 5 {[ 5 := {| ov_action := "Eject"; ov_note := "typo" |} ]}))
  ∧ call_compute_last_by_gw [gp 1 5 10; gp 2 5 5] 5 5
      {[ 5 := {| ov_action := "Eject"; ov_note := "typo" |} ]}
    = call_compute_last_by_gw [gp 1 5 10; gp 2 5 5] 5 5
        (<[ 5 := {| ov_action := "none"; ov_note := "typo" |} ]>
           {[ 5 := {| ov_action := "Eject"; ov_note := "typo" |} ]}).
Proof.
  apply (other_action_as_none [gp 1 5 10; gp 2 5 5] 5 5
           {[ 5 := {| ov_action := "Eject"; ov_note := "typo" |} ]} 5
           {| ov_action := "Eject"; ov_note := "typo" |});
    [reflexivity|by vm_compute|by vm_compute].
Defined.

(** C8. Every call returns.  The result has one row per gameweek of
    [gw_from .. gw_to], in ascending order of gameweek and no other row;
    it is empty when [gw_to < gw_from]. *)
Theorem resolver_one_row_per_round (gw_points_df : list GwPoints) (gw_from gw_to : Z)
    (overrides : gmap Z Override) :
  ∃ out,
    call_compute_last_by_gw gw_points_df gw_from gw_to overrides = Returned out ∧
    lr_event <$> out = seqZ gw_from (gw_to - gw_from + 1) ∧
    length out = Z.to_nat (gw_to - gw_from + 1) ∧
    (∀ g, gw_from ≤ g ≤ gw_to → ∃ res, filter (λ r, lr_event r = g) out = [res]) ∧
    (∀ res, res ∈ out → gw_from ≤ lr_event res ≤ gw_to) ∧
    Sorted Z.lt (lr_event <$> out) ∧
    (gw_to < gw_from → out = []).
Proof.
  exists (compute_last_by_gw gw_points_df gw_from gw_to overrides).
  assert (lr_event <$> compute_last_by_gw gw_points_df gw_from gw_to overrides
          = seqZ gw_from (gw_to - gw_from + 1)) as Hev.
  { rewrite events_compute_last_by_gw. unfold py_range. f_equal. lia. }
  split_and!.
  - done.
  - done.
  - by rewrite <- (length_fmap lr_event), Hev, length_seqZ.
  - intros g Hg. eexists. by apply rows_for_event.
  - intros res Hres. by apply elem_of_compute_last_by_gw in Hres as [? _].
  - rewrite Hev. apply Sorted_seqZ.
  - intros Hlt. rewrite compute_last_by_gw_fmap. unfold py_range.
    by rewrite seqZ_nil by lia.
Qed.

Lemma resolver_one_row_per_round_witness :
  ∃ out,
    call_compute_last_by_gw league_points 3 1 league_overrides = Returned out ∧
    lr_event <$> out = seqZ 3 (1 - 3 + 1) ∧
    length out = Z.to_nat (1 - 3 + 1) ∧
    (∀ g, 3 ≤ g ≤ 1 → ∃ res, filter (λ r, lr_event r = g) out = [res]) ∧
    (∀ res, res ∈ out → 3 ≤ lr_event res ≤ 1) ∧
    Sorted Z.lt (lr_event <$> out) ∧
    (1 < 3 → out = []).
Proof. apply (resolver_one_row_per_round league_points 3 1 league_overrides). Defined.

(** On a frame without missing points, a row of the result whose reason
    is [None] has a non-empty [last_entries]. *)
Theorem undefined_reason_has_last_entries (gw_points_df : list GwPoints)
    (gw_from gw_to : Z) (overrides : gmap Z Override) (res : LastRow) :
  res ∈ compute_last_by_gw gw_points_df gw_from gw_to overrides →
  lr_reason res = None →
  ∃ e, e ∈ lr_last_entries res.
Proof.
  intros [_ Hres]%elem_of_compute_last_by_gw Hreason.
  remember (lr_event res) as g eqn:Hg. clear Hg. subst res.
  destruct (rows_of_event gw_points_df g) as [|r sub] eqn:Hsub.
  - unfold round_row in Hreason. by rewrite Hsub in Hreason.
  - assert (r ∈ rows_of_event gw_points_df g) as [Hr Hev]%elem_of_rows_of_event
      by (rewrite Hsub; left).
    destruct (round_row_data gw_points_df overrides g r Hr Hev) as (m & Hm & Hrow).
    rewrite Hrow in Hreason |- *. simpl in *.
    apply min_of_event in Hm as [(r' & Hr' & Hev' & Hpts) _].
    exists (gp_entry r').
    assert (gp_entry r' ∈ entries_at (rows_of_event gw_points_df g) (Some m)) as Hin
      by (apply elem_of_entries_at; by exists r').
    unfold apply_override in *.
    destruct (overrides !! g) as [ov|]; [|done].
    by repeat case_decide.
Qed.

Lemma undefined_reason_has_last_entries_witness :
  ∃ e, e ∈ lr_last_entries
             {| lr_event := 5; lr_min_points := Some 5;
                lr_last_entries := [2; 3]; lr_reason := None |}.
Proof.
  apply (undefined_reason_has_last_entries
           [gp 1 5 10; gp 2 5 5; gp 3 5 5; gp 4 5 20] 5 5 ∅).
  - left.
  - reflexivity.
Defined.

(** ** The aggregator, row by row *)

Lemma reason_excluded_false (r : option Reason) : reason_excluded r = false ↔ r = None.
Proof. by destruct r as [[]|]. Qed.

Lemma last_expanded_bind (last_df : list LastRow) :
  last_expanded last_df = last_df ≫= expand_row.
Proof.
  unfold last_expanded.
  enough (∀ acc,
    foldl (λ acc row,
             if reason_excluded (lr_reason row) then acc
             else foldl (λ acc e, acc ++ [(e, lr_event row)]) acc (lr_last_entries row))
          acc last_df = acc ++ (last_df ≫= expand_row)) as H by apply (H []).
  induction last_df as [|row ld IH]; intros acc.
  - simpl. by rewrite app_nil_r.
  - cbn [foldl]. rewrite IH, bind_cons, app_assoc. f_equal. unfold expand_row.
    destruct (reason_excluded (lr_reason row)); [by rewrite app_nil_r|].
    apply foldl_snoc_fmap.
Qed.

Lemma events_of_cons (p : Z * Z) (last_map : list (Z * Z)) (e : Z) :
  events_of (p :: last_map) e
  = if decide (p.1 = e) then p.2 :: events_of last_map e else events_of last_map e.
Proof. unfold events_of. rewrite filter_cons. by case_decide. Qed.

Lemma events_of_app (l1 l2 : list (Z * Z)) (e : Z) :
  events_of (l1 ++ l2) e = events_of l1 e ++ events_of l2 e.
Proof. unfold events_of. by rewrite filter_app, fmap_app. Qed.

(** The group of an entry: its events, and no group for an entry that
    does not occur. *)
Lemma groupby_entry_lookup (last_map : list (Z * Z)) (e : Z) :
  groupby_entry last_map !! e
  = match events_of last_map e with
    | [] => None
    | evs => Some evs
    end.
Proof.
  unfold groupby_entry.
  enough (∀ g : gmap Z (list Z),
    foldl (λ g p, <[p.1 := default [] (g !! p.1) ++ [p.2]]> g) g last_map !! e
    = match events_of last_map e with
      | [] => g !! e
      | evs => Some (default [] (g !! e) ++ evs)
      end) as H.
  { rewrite H, lookup_empty. by destruct (events_of last_map e). }
  induction last_map as [|p lm IH]; intros g; simpl; [done|].
  rewrite IH, events_of_cons. case_decide as Hp.
  - subst e. rewrite lookup_insert_eq. simpl.
    destruct (events_of lm p.1); [done|]. by rewrite <- app_assoc.
  - by rewrite lookup_insert_ne.
Qed.

Lemma sorted_nil : sorted [] = [].
Proof. done. Qed.

(** The frame [ov] before the [forfeits] column is added. *)
Lemma overview_before_forfeits (entries_df : list Entry) (last_map : list (Z * Z)) :
  listify_last_gws
    (fillna_times_last
       (merge_left_series entries_df (length <$> groupby_entry last_map)
          (sorted <$> groupby_entry last_map)))
  = (λ en, (en, length (events_of last_map (en_entry en)),
            sorted (events_of last_map (en_entry en)))) <$> entries_df.
Proof.
  unfold listify_last_gws, fillna_times_last, merge_left_series.
  rewrite <- !list_fmap_compose. apply list_fmap_ext. intros _ en _. simpl.
  rewrite !lookup_fmap, groupby_entry_lookup.
  by destruct (events_of last_map (en_entry en)).
Qed.

Lemma filter_key_unique (notes : list (Z * string)) (e : Z) :
  NoDup notes.*1 → (length (filter (λ n, n.1 = e) notes) ≤ 1)%nat.
Proof.
  induction notes as [|n notes IH]; simpl; intros Hnd; [lia|].
  apply NoDup_cons in Hnd as [Hn Hnd]. rewrite filter_cons. case_decide as He.
  - rewrite filter_fmap_none; [simpl; lia|].
    intros n' Hn' Hk. apply Hn. rewrite He, <- Hk. by apply list_elem_of_fmap_2.
  - by apply IH.
Qed.

(** With at most one note per entry the last merge keeps the rows of [ov]
    one for one. *)
Lemma merge_left_forfeits_unique (ov : list (Entry * nat * list Z))
    (notes : list (Z * string)) :
  NoDup notes.*1 →
  merge_left_forfeits ov notes
  = (λ '(en, t, g), {| o_entry := en; o_times_last := t; o_last_gws := g;
                       o_forfeits := note_of notes (en_entry en) |}) <$> ov.
Proof.
  intros Hnd. unfold merge_left_forfeits.
  induction ov as [|[[en t] g] ov IH]; [done|].
  rewrite bind_cons, IH, fmap_cons. clear IH.
  pose proof (filter_key_unique notes (en_entry en) Hnd) as Hlen.
  unfold note_of.
  destruct (filter (λ n, n.1 = en_entry en) notes) as [|n [|n' ms]]; simpl in *;
    [done|done|lia].
Qed.

(** The result of [merge_overview], one row per row of [entries_df]. *)
Lemma merge_overview_rows (entries_df : list Entry) (last_df : list LastRow)
    (forfeits_df : option (list (Z * string))) :
  unique_notes forfeits_df →
  merge_overview entries_df last_df forfeits_df
  = (λ en, {| o_entry := en;
              o_times_last := length (events_of (last_expanded last_df) (en_entry en));
              o_last_gws := sorted (events_of (last_expanded last_df) (en_entry en));
              o_forfeits := forfeits_cell forfeits_df (en_entry en) |}) <$> entries_df.
Proof.
  intros Hnd. unfold merge_overview. rewrite overview_before_forfeits.
  destruct forfeits_df as [[|n ns]|]; simpl.
  - unfold assign_forfeits. by rewrite <- list_fmap_compose.
  - rewrite merge_left_forfeits_unique by done. by rewrite <- list_fmap_compose.
  - unfold assign_forfeits. by rewrite <- list_fmap_compose.
Qed.

(** ** Counting the rounds an entry finished last *)

Lemma events_of_pairs (l : list Z) (ev e : Z) :
  NoDup l →
  events_of ((λ e', (e', ev)) <$> l) e = if decide (e ∈ l) then [ev] else [].
Proof.
  induction l as [|x l IH]; intros Hnd.
  - rewrite decide_False; [done|]. apply not_elem_of_nil.
  - apply NoDup_cons in Hnd as [Hx Hnd]. rewrite fmap_cons, events_of_cons, IH by done.
    simpl. destruct (decide (x = e)) as [->|Hne].
    + rewrite (decide_False (P := e ∈ l)) by done.
      rewrite decide_True; [done|left].
    + destruct (decide (e ∈ l)) as [Hin|Hnin].
      * rewrite decide_True; [done|by right].
      * rewrite decide_False; [done|].
        intros [->|?]%elem_of_cons; done.
Qed.

Lemma events_of_expand_row (row : LastRow) (e : Z) :
  NoDup (lr_last_entries row) →
  events_of (expand_row row) e
  = if decide (lr_reason row = None ∧ e ∈ lr_last_entries row) then [lr_event row] else [].
Proof.
  intros Hnd. unfold expand_row.
  destruct (reason_excluded (lr_reason row)) eqn:Hex.
  - rewrite decide_False; [done|]. intros [Hr _].
    apply reason_excluded_false in Hr. congruence.
  - apply reason_excluded_false in Hex. rewrite events_of_pairs by done.
    destruct (decide (e ∈ lr_last_entries row)).
    + by rewrite decide_True.
    + rewrite decide_False; [done|]. by intros [_ ?].
Qed.

(** When no row of [last_df] lists an entry twice, the events of an entry
    are the events of the rows in which it finished last. *)
Lemma events_of_last_expanded (last_df : list LastRow) (e : Z) :
  Forall (λ row, NoDup (lr_last_entries row)) last_df →
  events_of (last_expanded last_df) e = lr_event <$> rounds_last last_df e.
Proof.
  rewrite last_expanded_bind. unfold rounds_last.
  induction 1 as [|row ld Hrow _ IH]; [done|].
  rewrite bind_cons, events_of_app, IH, events_of_expand_row, filter_cons by done.
  by case_decide.
Qed.

Lemma length_last_expanded (last_df : list LastRow) :
  length (last_expanded last_df)
  = sum_list_with (λ row, length (lr_last_entries row))
      (filter (λ row, lr_reason row = None) last_df).
Proof.
  rewrite last_expanded_bind.
  induction last_df as [|row ld IH]; [done|].
  rewrite bind_cons, length_app, IH, filter_cons. unfold expand_row.
  destruct (reason_excluded (lr_reason row)) eqn:Hex.
  - rewrite decide_False; [done|]. intros Hr.
    apply reason_excluded_false in Hr. congruence.
  - apply reason_excluded_false in Hex. rewrite decide_True by done.
    by rewrite length_fmap.
Qed.

Lemma elem_of_last_expanded (last_df : list LastRow) (p : Z * Z) :
  p ∈ last_expanded last_df ↔
  ∃ row, row ∈ last_df ∧ lr_reason row = None ∧
         p.1 ∈ lr_last_entries row ∧ p.2 = lr_event row.
Proof.
  rewrite last_expanded_bind, list_elem_of_bind. unfold expand_row. split.
  - intros (row & Hp & Hrow). exists row.
    destruct (reason_excluded (lr_reason row)) eqn:Hex;
      [by apply elem_of_nil in Hp|].
    apply reason_excluded_false in Hex.
    apply list_elem_of_fmap in Hp as (e & -> & He). by simpl.
  - intros (row & Hrow & Hr & He & Hev). exists row. split; [|done].
    apply reason_excluded_false in Hr. rewrite Hr.
    apply list_elem_of_fmap. exists p.1. split; [|done].
    destruct p; simpl in *; by subst.
Qed.

Lemma sum_list_with_ext_in {A} (f g : A → nat) (l : list A) :
  (∀ x, x ∈ l → f x = g x) → sum_list_with f l = sum_list_with g l.
Proof.
  induction l as [|x l IH]; intros Hfg; simpl; [done|].
  rewrite (Hfg x) by left. rewrite IH; [done|].
  intros y Hy. apply Hfg. by right.
Qed.

(** Distinct keys that cover the pairs split them without loss. *)
Lemma sum_events_of (ids : list Z) (last_map : list (Z * Z)) :
  NoDup ids →
  (∀ p, p ∈ last_map → p.1 ∈ ids) →
  sum_list_with (λ id, length (events_of last_map id)) ids = length last_map.
Proof.
  intros Hnd. revert last_map.
  induction Hnd as [|id ids Hid Hnd IH]; intros lm Hcov.
  - destruct lm as [|p lm]; [done|].
    specialize (Hcov p ltac:(left)). by apply elem_of_nil in Hcov.
  - simpl.
    rewrite (sum_list_with_ext_in _
               (λ id', length (events_of (filter (λ p, p.1 ≠ id) lm) id'))).
    + rewrite IH.
      * unfold events_of. rewrite length_fmap, <- length_app.
        apply Permutation_length, (filter_app_complement (λ p, p.1 = id)).
      * intros p [Hp1 Hp2]%list_elem_of_filter.
        specialize (Hcov p Hp2). apply elem_of_cons in Hcov as [?|?]; done.
    + intros id' Hid'. unfold events_of. rewrite list_filter_filter.
      f_equal. f_equal. apply list_filter_iff. intros p. split; [|tauto].
      intros ->. split; [done|]. by intros ->.
Qed.

Example league_last_rows :
  league_last
  = [mk_last 1 (Some 20) [2] None; mk_last 2 (Some 10) [] (Some Skipped);
     mk_last 3 (Some 25) [1; 2] None; mk_last 4 None [] (Some NoData)].
Proof. reflexivity. Qed.

Example league_overview :
  merge_overview league_entries league_last league_notes
  = [ {| o_entry := mk_entry 1 "A"; o_times_last := 1; o_last_gws := [3];
         o_forfeits := Some "owes a round" |};
      {| o_entry := mk_entry 2 "B"; o_times_last := 2; o_last_gws := [1; 3];
         o_forfeits := Some "cooks dinner" |};
      {| o_entry := mk_entry 5 "E"; o_times_last := 0; o_last_gws := [];
         o_forfeits := Some "" |} ].
Proof. reflexivity. Qed.

(** ** Claims about the aggregator *)

(** C3, as stated, fails on both counts.  The frame has the row of entry
    1 in gameweek 3 twice, so the resolver lists entry 1 twice: one row of
    [last_df] holds the entry, and its [times_last] is 2.  And with two
    notes for entry 1 the overview has two rows for the one entry. *)
Lemma repeated_entry_counterexample :
  compute_last_by_gw [gp 1 3 5; gp 1 3 5] 3 3 ∅ = [mk_last 3 (Some 5) [1; 1] None] ∧
  o_times_last
    <$> merge_overview [mk_entry 1 "A"] (compute_last_by_gw [gp 1 3 5; gp 1 3 5] 3 3 ∅) None
  = [2%nat] ∧
  length (rounds_last (compute_last_by_gw [gp 1 3 5; gp 1 3 5] 3 3 ∅) 1) = 1%nat ∧
  o_entry <$> merge_overview [mk_entry 1 "A"] [] (Some [(1, "x"); (1, "y")])
  = [mk_entry 1 "A"; mk_entry 1 "A"].
Proof. split_and!; by vm_compute. Qed.

(** C3, amended.  With [forfeits_df] a mapping (at most one note per
    entry) and every [last_entries] a set (no entry twice), the result has
    exactly one row
    per row of [entries_df], in order, and no other row, so an entry that is
    named in [last_df] but is not in [entries_df] has no row.  For every
    row, [times_last] is the number of rows of [last_df] with reason [None]
    whose [last_entries] hold the entry, and [last_gws] is the ascending
    list of their gameweeks; an entry that never finished last has
    [times_last = 0] and [last_gws = []]. *)
Theorem aggregator_summaries (entries_df : list Entry) (last_df : list LastRow)
    (forfeits_df : option (list (Z * string))) :
  unique_notes forfeits_df →
  Forall (λ row, NoDup (lr_last_entries row)) last_df →
  o_entry <$> merge_overview entries_df last_df forfeits_df = entries_df ∧
  Forall (λ o,
            o_times_last o = length (rounds_last last_df (en_entry (o_entry o))) ∧
            Sorted Z.le (o_last_gws o) ∧
            o_last_gws o ≡ₚ lr_event <$> rounds_last last_df (en_entry (o_entry o)) ∧
            (rounds_last last_df (en_entry (o_entry o)) = [] →
             o_times_last o = 0%nat ∧ o_last_gws o = []))
         (merge_overview entries_df last_df forfeits_df).
Proof.
  intros Hnotes Hsets. rewrite merge_overview_rows by done. split.
  - rewrite <- list_fmap_compose. apply list_fmap_id.
  - apply Forall_fmap, Forall_forall. intros en _. simpl.
    rewrite events_of_last_expanded by done.
    split_and!.
    + by rewrite length_fmap.
    + apply (Sorted_merge_sort Z.le).
    + apply (merge_sort_Permutation Z.le).
    + by intros ->.
Qed.

Lemma aggregator_summaries_witness :
  o_entry <$> merge_overview league_entries league_last league_notes = league_entries ∧
  Forall (λ o,
            o_times_last o = length (rounds_last league_last (en_entry (o_entry o))) ∧
            Sorted Z.le (o_last_gws o) ∧
            o_last_gws o ≡ₚ lr_event <$> rounds_last league_last (en_entry (o_entry o)) ∧
            (rounds_last league_last (en_entry (o_entry o)) = [] →
             o_times_last o = 0%nat ∧ o_last_gws o = []))
         (merge_overview league_entries league_last league_notes).
Proof.
  apply (aggregator_summaries league_entries league_last league_notes).
  - cbv [unique_notes league_notes]. by apply (bool_decide_unpack _); vm_compute.
  - by apply (bool_decide_unpack _); vm_compute.
Defined.

(** C6, on the code: [forfeits_df] holds a note for entry 1 and none for
    entry 2; the left merge leaves the [forfeits] cell of entry 2 missing
    (NaN), where the claim has the empty string. *)
Theorem forfeits_missing_after_merge :
  merge_overview [mk_entry 1 "A"; mk_entry 2 "B"] [] (Some [(1, "owes a round")])
  = [ {| o_entry := mk_entry 1 "A"; o_times_last := 0; o_last_gws := [];
         o_forfeits := Some "owes a round" |};
      {| o_entry := mk_entry 2 "B"; o_times_last := 0; o_last_gws := [];
         o_forfeits := None |} ].
Proof. reflexivity. Qed.

(** The other branch does give the empty string: without any note, every
    [forfeits] cell is [""]. *)
Lemma forfeits_empty_without_notes (entries_df : list Entry) (last_df : list LastRow)
    (forfeits_df : option (list (Z * string))) :
  forfeits_df = None ∨ forfeits_df = Some [] →
  Forall (λ o, o_forfeits o = Some "") (merge_overview entries_df last_df forfeits_df).
Proof.
  intros Hno.
  rewrite merge_overview_rows by (by destruct Hno as [->| ->]; [|apply NoDup_nil]).
  apply Forall_fmap, Forall_forall. intros en _. simpl.
  by destruct Hno as [->| ->].
Qed.

Lemma note_of_spec (notes : list (Z * string)) (e : Z) :
  NoDup notes.*1 →
  (∀ note, (e, note) ∈ notes → note_of notes e = Some note) ∧
  (e ∉ notes.*1 → note_of notes e = None).
Proof.
  unfold note_of. induction notes as [|[k v] notes IH]; intros Hnd.
  - split; [|done]. by intros note ?%elem_of_nil.
  - apply NoDup_cons in Hnd as [Hk Hnd]. destruct (IH Hnd) as [IH1 IH2].
    rewrite filter_cons. cbn [fst]. case_decide as Hke.
    + subst k. split.
      * intros note [[= ->]|Hin]%elem_of_cons; [done|].
        destruct Hk. apply list_elem_of_fmap. by exists (e, note).
      * intros Hnin. destruct Hnin. left.
    + split.
      * intros note [[= ? ?]|Hin]%elem_of_cons; [done|]. by apply IH1.
      * intros Hnin. apply IH2. intros ?. apply Hnin. by right.
Qed.

(** A note that is present is the [forfeits] cell of its entry; with notes
    for other entries only, the cell is missing. *)
Lemma forfeits_cell_of_notes (entries_df : list Entry) (last_df : list LastRow)
    (n : Z * string) (ns : list (Z * string)) :
  NoDup (n :: ns).*1 →
  Forall (λ o, (∀ note, (en_entry (o_entry o), note) ∈ n :: ns → o_forfeits o = Some note) ∧
               (en_entry (o_entry o) ∉ (n :: ns).*1 → o_forfeits o = None))
         (merge_overview entries_df last_df (Some (n :: ns))).
Proof.
  intros Hnd. rewrite merge_overview_rows by done.
  apply Forall_fmap, Forall_forall. intros en _.
  apply (note_of_spec (n :: ns) (en_entry en) Hnd).
Qed.

Lemma sum_list_with_fmap {A B} (f : B → nat) (g : A → B) (l : list A) :
  sum_list_with f (g <$> l) = sum_list_with (f ∘ g) l.
Proof. induction l as [|x l IH]; csimpl; [done|]. by rewrite IH. Qed.




(** ** The two functions over the store *)

Section store.
Implicit Types (h : Store) (o : PyObject).

Lemma py_bind_Some {A B} (c : Py A) (k : A → Py B) h a h' :
  c h = Some (a, h') → py_bind c k h = k a h'.
Proof. unfold py_bind. by intros ->. Qed.

Lemma store_kept_refl h : store_kept h h.
Proof. by intros l o. Qed.

Lemma store_kept_trans h1 h2 h3 : store_kept h1 h2 → store_kept h2 h3 → store_kept h1 h3.
Proof. intros H12 H23 l o Hl. by apply H23, H12. Qed.

Lemma store_kept_app h k : store_kept h (h ++ k).
Proof. intros l o Hl. by apply lookup_app_l_Some. Qed.

Lemma lookup_new h o k : (h ++ o :: k) !! length h = Some o.
Proof. by apply list_lookup_middle. Qed.

Lemma py_read_new h o : py_read (length h) (h ++ [o]) = Some (o, h ++ [o]).
Proof. unfold py_read. by rewrite lookup_new. Qed.

(** An assignment to the newest object changes that object only. *)
Lemma py_write_new h o o' : py_write (length h) o' (h ++ [o]) = Some (tt, h ++ [o']).
Proof.
  unfold py_write. rewrite decide_True by (rewrite length_app; simpl; lia).
  rewrite insert_app_r_alt by lia.
  by replace (length h - length h)%nat with 0%nat by lia.
Qed.

Lemma py_read_kept h l o : h !! l = Some o → py_read l h = Some (o, h).
Proof. unfold py_read. by intros ->. Qed.

(** The loop of the resolver reads its two arguments and writes nothing. *)
Lemma py_for_round_rows h gw_points_df overrides df ovs (xs : list Z) (acc : list LastRow) :
  h !! gw_points_df = Some (OGwPoints df) →
  h !! overrides = Some (OOverrides ovs) →
  py_for xs
    (λ out gw,
       let! df := read_gw_points gw_points_df in
       let! ovs := read_overrides overrides in
       py_ret (out ++ [round_row df ovs gw]))
    acc h
  = Some (foldl (λ out gw, out ++ [round_row df ovs gw]) acc xs, h).
Proof.
  intros Hdf Hovs. revert acc. induction xs as [|gw xs IH]; intros acc; [done|].
  cbn [py_for foldl]. unfold py_bind at 1.
  unfold read_gw_points, read_overrides, py_bind, py_ret.
  rewrite (py_read_kept _ _ _ Hdf), (py_read_kept _ _ _ Hovs).
  apply IH.
Qed.

Lemma compute_last_by_gw_st_new h gw_points_df overrides df ovs (gw_from gw_to : Z) :
  h !! gw_points_df = Some (OGwPoints df) →
  h !! overrides = Some (OOverrides ovs) →
  returns_new (compute_last_by_gw_st gw_points_df gw_from gw_to overrides) h
              (OLast (compute_last_by_gw df gw_from gw_to ovs)).
Proof.
  intros Hdf Hovs. exists (length h), (h ++ [OLast (compute_last_by_gw df gw_from gw_to ovs)]).
  split_and!.
  - unfold compute_last_by_gw_st.
    by rewrite (py_bind_Some _ _ _ _ _ (py_for_round_rows h _ _ df ovs _ [] Hdf Hovs)).
  - by apply lookup_ge_None.
  - apply lookup_new.
  - apply store_kept_app.
Qed.

Lemma merge_overview_st_new h entries_df last_df forfeits_df en ld notes :
  h !! entries_df = Some (OEntries en) →
  h !! last_df = Some (OLast ld) →
  forfeits_in h forfeits_df notes →
  returns_new (merge_overview_st entries_df last_df forfeits_df) h
              (OOverview (merge_overview en ld notes)).
Proof.
  intros Hen Hld Hnotes.
  unfold returns_new, merge_overview_st, merge_overview.
  unfold read_last, read_entries, py_bind at 1 2 3 4 5.
  rewrite (py_read_kept _ _ _ Hld). cbn [py_ret].
  rewrite (py_read_kept _ _ _ Hen). cbn [py_ret py_new].
  set (rows0 := merge_left_series _ _ _).
  unfold py_bind at 1. rewrite py_read_new.
  unfold py_bind at 1. rewrite py_write_new.
  unfold py_bind at 1. rewrite py_read_new.
  unfold py_bind at 1. rewrite py_write_new.
  set (rows := listify_last_gws (fillna_times_last rows0)).
  assert (∀ k, store_kept h (h ++ k)) as Hkept by apply store_kept_app.
  destruct forfeits_df as [nl|], notes as [ns|]; simpl in Hnotes; try done.
  - unfold py_bind at 1. unfold read_forfeits, py_bind at 1 2.
    rewrite (py_read_kept _ nl (OForfeits ns)) by by apply Hkept.
    cbn [py_ret]. unfold py_bind at 1. rewrite py_read_new.
    destruct ns as [|n ns].
    + unfold py_bind. rewrite py_write_new. cbn [py_ret].
      exists (length h), (h ++ [OOverview (assign_forfeits rows "")]).
      split_and!; [done|by apply lookup_ge_None|apply lookup_new|apply Hkept].
    + cbn [py_new].
      exists (length (h ++ [OListed rows])),
             ((h ++ [OListed rows]) ++ [OOverview (merge_left_forfeits rows (n :: ns))]).
      split_and!; [done| |apply lookup_new|].
      * apply lookup_ge_None. rewrite length_app. simpl. lia.
      * rewrite <- app_assoc. apply Hkept.
  - unfold py_bind at 1. cbn [py_ret]. unfold py_bind at 1. rewrite py_read_new.
    unfold py_bind. rewrite py_write_new. cbn [py_ret].
    exists (length h), (h ++ [OOverview (assign_forfeits rows "")]).
    split_and!; [done|by apply lookup_ge_None|apply lookup_new|apply Hkept].
Qed.

(** A call that returns a new object and keeps the store can be repeated,
    with the same contents for both results. *)
Lemma returns_new_twice (c : Py nat) h v :
  returns_new c h v →
  (∀ h', store_kept h h' → returns_new c h' v) →
  twice_same c h v.
Proof.
  intros (l1 & h1 & Hc1 & Hfresh1 & Hv1 & Hk1) Hagain.
  destruct (Hagain h1 Hk1) as (l2 & h2 & Hc2 & Hfresh2 & Hv2 & Hk2).
  exists l1, h1, l2, h2. split_and!; [done|done| |by apply Hk2|done|].
  - intros ->. congruence.
  - by eapply store_kept_trans.
Qed.

Lemma forfeits_in_kept h h' forfeits_df notes :
  store_kept h h' → forfeits_in h forfeits_df notes → forfeits_in h' forfeits_df notes.
Proof.
  intros Hk. destruct forfeits_df, notes; simpl; try done. apply Hk.
Qed.
End store.

(** C9. In any store that holds the arguments, a call of the aggregator
    returns a new frame whose contents are [merge_overview] of the
    contents of its arguments, and changes no object of the store; a second
    call with the same arguments returns a frame of the same contents.
    The same holds for the resolver and [compute_last_by_gw]. *)
Theorem calls_repeatable (h : Store)
    (gw_points_df overrides entries_df last_df : nat) (forfeits_df : option nat)
    (df : list GwPoints) (ovs : gmap Z Override) (en : list Entry) (ld : list LastRow)
    (notes : option (list (Z * string))) (gw_from gw_to : Z) :
  h !! gw_points_df = Some (OGwPoints df) →
  h !! overrides = Some (OOverrides ovs) →
  h !! entries_df = Some (OEntries en) →
  h !! last_df = Some (OLast ld) →
  forfeits_in h forfeits_df notes →
  twice_same (merge_overview_st entries_df last_df forfeits_df) h
             (OOverview (merge_overview en ld notes)) ∧
  twice_same (compute_last_by_gw_st gw_points_df gw_from gw_to overrides) h
             (OLast (compute_last_by_gw df gw_from gw_to ovs)).
Proof.
  intros Hdf Hovs Hen Hld Hnotes. split.
  - apply returns_new_twice.
    + by apply merge_overview_st_new.
    + intros h' Hk. apply merge_overview_st_new; [by apply Hk..|].
      by eapply forfeits_in_kept.
  - apply returns_new_twice.
    + by apply compute_last_by_gw_st_new.
    + intros h' Hk. apply compute_last_by_gw_st_new; by apply Hk.
Qed.

Lemma calls_repeatable_witness :
  twice_same (merge_overview_st 2 3 (Some 4%nat)) league_store
             (OOverview (merge_overview league_entries league_last league_notes)) ∧
  twice_same (compute_last_by_gw_st 0 1 4 1) league_store
             (OLast (compute_last_by_gw league_points 1 4 league_overrides)).
Proof.
  apply (calls_repeatable league_store 0 1 2 3 (Some 4%nat)
           league_points league_overrides league_entries league_last league_notes 1 4);
    reflexivity.
Defined.

Example league_overview_st :
  (λ r, (r.1, r.2 !! r.1)) <$> merge_overview_st 2 3 (Some 4%nat) league_store
  = Some (6%nat, Some (OOverview (merge_overview league_entries league_last league_notes))).
Proof. reflexivity. Qed.

(** ** Persistence *)

(** A run of insertions: the last row of a key decides its value. *)
Lemma foldl_insert_lookup {A V} (key : A → Z) (val : A → V) (m : gmap Z V)
    (rs : list A) (k : Z) :
  foldl (λ m r, <[key r := val r]> m) m rs !! k
  = match last (filter (λ r, key r = k) rs) with
    | Some r => Some (val r)
    | None => m !! k
    end.
Proof.
  induction rs as [|r rs IH] using rev_ind; [done|].
  rewrite foldl_app, filter_app. cbn [foldl]. rewrite filter_cons, filter_nil.
  case_decide as Hk.
  - rewrite last_snoc, <- Hk. apply lookup_insert_eq.
  - rewrite app_nil_r, lookup_insert_ne by done. apply IH.
Qed.

Lemma foldl_insert_pair_lookup {V} (league : Z) (val : Z * V → string) (m : gmap (Z * Z) string)
    (rs : list (Z * V)) (k : Z * Z) :
  foldl (λ m r, <[(league, r.1) := val r]> m) m rs !! k
  = if decide (k.1 = league)
    then match last (filter (λ r, r.1 = k.2) rs) with
         | Some r => Some (val r)
         | None => m !! k
         end
    else m !! k.
Proof.
  induction rs as [|r rs IH] using rev_ind.
  - simpl. by case_decide.
  - rewrite foldl_app, filter_app. cbn [foldl]. rewrite filter_cons, filter_nil.
    destruct (decide ((league, r.1) = k)) as [<-|Hne].
    + rewrite lookup_insert_eq. cbn [fst snd].
      rewrite !decide_True by done. by rewrite last_snoc.
    + rewrite lookup_insert_ne, IH by done.
      destruct (decide (k.1 = league)) as [Hl|]; [|done].
      rewrite decide_False; [by rewrite app_nil_r|].
      intros Hr. apply Hne. destruct k; simpl in *; by subst.
Qed.

(** The rows of one league in a table, by key. *)
Lemma league_rows_elem {V} (t : gmap (Z * Z) V) (league : Z) (r : Z * Z * V) :
  r ∈ filter (λ r, r.1.1 = league) (map_to_list t) ↔
  r.1.1 = league ∧ t !! r.1 = Some r.2.
Proof. rewrite list_elem_of_filter, elem_of_map_to_list'. tauto. Qed.

Lemma league_rows_last {V} (t : gmap (Z * Z) V) (league k : Z) :
  last (filter (λ r, r.1.2 = k) (filter (λ r, r.1.1 = league) (map_to_list t)))
  = (λ v, ((league, k), v)) <$> t !! (league, k).
Proof.
  destruct (last _) as [r|] eqn:Hlast.
  - apply last_Some_elem_of in Hlast.
    apply list_elem_of_filter in Hlast as [Hk [Hl Hr]%league_rows_elem].
    destruct r as [[l e] v]; simpl in *; subst. by rewrite Hr.
  - apply last_None in Hlast.
    destruct (t !! (league, k)) as [v|] eqn:Ht; [|done].
    assert (((league, k), v) ∈ filter (λ r : Z * Z * V, r.1.2 = k)
              (filter (λ r, r.1.1 = league) (map_to_list t))) as Hin.
    { apply list_elem_of_filter. split; [done|]. by apply league_rows_elem. }
    rewrite Hlast in Hin. by apply elem_of_nil in Hin.
Qed.

(** What [load_overrides] holds for an event: the row of the league and
    the event, with a NULL note read as the empty text. *)
Lemma load_overrides_lookup (db : Db) (league_id event : Z) :
  load_overrides db league_id !! event
  = (λ v, {| ov_action := v.1; ov_note := default "" v.2 |})
      <$> t_overrides db !! (league_id, event).
Proof.
  unfold load_overrides.
  rewrite (foldl_insert_lookup (λ r, r.1.2)
             (λ r, {| ov_action := r.2.1; ov_note := default "" r.2.2 |})).
  rewrite league_rows_last, lookup_empty.
  by destruct (t_overrides db !! (league_id, event)).
Qed.

Lemma elem_of_load_forfeits (db : Db) (league_id e : Z) (v : string) :
  (e, v) ∈ load_forfeits db league_id ↔ t_forfeits db !! (league_id, e) = Some v.
Proof.
  unfold load_forfeits. rewrite list_elem_of_fmap. split.
  - intros ([[l e'] v'] & [= -> ->] & [Hl Hr]%league_rows_elem). simpl in *. by subst.
  - intros Ht. exists ((league_id, e), v). split; [done|]. by apply league_rows_elem.
Qed.

Lemma check_action_cases (a : string) :
  check_action a ↔ a = "none" ∨ a = "skip" ∨ a = "eject".
Proof.
  unfold check_action. rewrite !elem_of_cons, elem_of_nil. tauto.
Qed.

Lemma set_override_commits (db : Db) (league_id event : Z) (action note : string) :
  check_action action →
  ∃ db',
    set_override db league_id event action note = Committed db' ∧
    load_overrides db' league_id
    = <[event := {| ov_action := action; ov_note := note |}]> (load_overrides db league_id) ∧
    (∀ l, l ≠ league_id → load_overrides db' l = load_overrides db l) ∧
    (∀ l, load_forfeits db' l = load_forfeits db l).
Proof.
  intros Hok. unfold set_override. rewrite decide_True by done.
  eexists. split; [done|]. split_and!.
  - apply map_eq. intros ev. rewrite load_overrides_lookup. cbn [t_overrides].
    destruct (decide (ev = event)) as [->|Hne].
    + by rewrite !lookup_insert_eq.
    + rewrite !lookup_insert_ne by congruence. by rewrite load_overrides_lookup.
  - intros l Hl. apply map_eq. intros ev. rewrite !load_overrides_lookup. cbn [t_overrides].
    by rewrite lookup_insert_ne by congruence.
  - done.
Qed.

(** X1. A valid [set_override] commits; afterwards [load_overrides] of the
    league holds the new override for the event and is otherwise as
    before, and neither the other leagues nor the notes change. *)
Theorem set_override_then_load (db : Db) (league_id event : Z) (action note : string) :
  check_action action →
  ∃ db',
    set_override db league_id event action note = Committed db' ∧
    load_overrides db' league_id
    = <[event := {| ov_action := action; ov_note := note |}]> (load_overrides db league_id) ∧
    (∀ l, l ≠ league_id → load_overrides db' l = load_overrides db l) ∧
    (∀ l, load_forfeits db' l = load_forfeits db l).
Proof. apply set_override_commits. Qed.

Lemma set_override_then_load_witness :
  ∃ db',
    set_override empty_db 7 3 "skip" "void" = Committed db' ∧
    load_overrides db' 7
    = <[3 := {| ov_action := "skip"; ov_note := "void" |}]> (load_overrides empty_db 7) ∧
    (∀ l, l ≠ 7 → load_overrides db' l = load_overrides empty_db l) ∧
    (∀ l, load_forfeits db' l = load_forfeits empty_db l).
Proof.
  apply (set_override_then_load empty_db 7 3 "skip" "void").
  by apply (bool_decide_unpack _); vm_compute.
Defined.

(** X2. The [CHECK] constraint is an invariant of the store: it holds of
    the new database, an action outside the three is refused, and every
    write keeps it; so every override [load_overrides] returns has one of
    the three actions. *)
Theorem check_constraint_kept :
  overrides_checked empty_db ∧
  (∀ db l ev a n, ¬ check_action a → set_override db l ev a n = IntegrityError) ∧
  (∀ db l ev a n db',
     overrides_checked db → set_override db l ev a n = Committed db' →
     overrides_checked db') ∧
  (∀ db l ev, overrides_checked db → overrides_checked (clear_override db l ev)) ∧
  (∀ db l df, overrides_checked db → overrides_checked (save_forfeits db l df)) ∧
  (∀ db l ev ov,
     overrides_checked db → load_overrides db l !! ev = Some ov →
     check_action (ov_action ov)).
Proof.
  split_and!.
  - intros k a n Hk. cbn [empty_db t_overrides] in Hk. by rewrite lookup_empty in Hk.
  - intros db l ev a n Hbad. unfold set_override. by rewrite decide_False.
  - intros db l ev a n db' Hdb. unfold set_override.
    case_decide as Hok; [|done]. intros [= <-] k a' n'. cbn [t_overrides].
    destruct (decide (k = (l, ev))) as [->|Hne].
    + rewrite lookup_insert_eq. by intros [= <- <-].
    + rewrite lookup_insert_ne by done. apply Hdb.
  - intros db l ev Hdb k a n. cbn [clear_override t_overrides].
    intros [_ Hk]%lookup_delete_Some. by eapply Hdb.
  - intros db l df Hdb. by destruct df.
  - intros db l ev ov Hdb. rewrite load_overrides_lookup.
    destruct (t_overrides db !! (l, ev)) as [[a n]|] eqn:Hk; [|done].
    intros [= <-]. by eapply Hdb.
Qed.

(** X3. After [clear_override] the league has no override for the event
    and the same overrides for the others; the other leagues are
    unchanged; clearing an event without override changes nothing.
    Clearing after a [set_override] of the same event leaves the league
    without an override for it: the overrides are those before the
    [set_override] when the event had none then, and an override the
    event had before is not brought back. *)
Theorem clear_override_then_load (db : Db) (league_id event : Z) :
  load_overrides (clear_override db league_id event) league_id
  = delete event (load_overrides db league_id) ∧
  (∀ l, l ≠ league_id →
        load_overrides (clear_override db league_id event) l = load_overrides db l) ∧
  (load_overrides db league_id !! event = None → clear_override db league_id event = db) ∧
  (∀ a n db', set_override db league_id event a n = Committed db' →
              load_overrides (clear_override db' league_id event) league_id
              = delete event (load_overrides db league_id) ∧
              load_overrides (clear_override db' league_id event) league_id !! event
              = None ∧
              (load_overrides db league_id !! event = None →
               load_overrides (clear_override db' league_id event) league_id
               = load_overrides db league_id) ∧
              (∀ l, load_overrides (clear_override db' league_id event) l
                    = load_overrides (clear_override db league_id event) l)).
Proof.
  split_and!.
  - apply map_eq. intros ev. rewrite load_overrides_lookup. cbn [clear_override t_overrides].
    destruct (decide (ev = event)) as [->|Hne].
    + by rewrite !lookup_delete_eq.
    + rewrite !lookup_delete_ne by congruence. by rewrite load_overrides_lookup.
  - intros l Hl. apply map_eq. intros ev. rewrite !load_overrides_lookup.
    cbn [clear_override t_overrides]. by rewrite lookup_delete_ne by congruence.
  - rewrite load_overrides_lookup. intros Hnone%fmap_None.
    destruct db as [tf tov]. unfold clear_override. cbn [t_forfeits t_overrides] in *.
    f_equal. by apply delete_id.
  - intros a n db'. unfold set_override. case_decide; [|done]. intros [= <-].
    assert (load_overrides
              (clear_override
                 {| t_forfeits := t_forfeits db;
                    t_overrides := <[(league_id, event):=(a, Some n)]> (t_overrides db) |}
                 league_id event) league_id
            = delete event (load_overrides db league_id)) as Hclear.
    { apply map_eq. intros ev. rewrite load_overrides_lookup.
      cbn [clear_override t_overrides].
      destruct (decide (ev = event)) as [->|Hne].
      - by rewrite !lookup_delete_eq.
      - rewrite !lookup_delete_ne, lookup_insert_ne by congruence.
        by rewrite load_overrides_lookup. }
    split_and!.
    + done.
    + by rewrite Hclear, lookup_delete_eq.
    + intros Hnone. rewrite Hclear. by apply delete_id.
    + intros l. apply map_eq. intros ev. rewrite !load_overrides_lookup.
      cbn [clear_override t_overrides]. by rewrite delete_insert_eq.
Qed.

(** X4. With the overrides of a store that satisfies its [CHECK]
    constraint, the reason of a gameweek that has a score is decided by the
    stored action alone: [None] exactly for no row or the action ["none"],
    ['ejected'] exactly for ["eject"], ['skipped'] exactly for ["skip"]. *)
Theorem stored_action_decides_reason (db : Db) (league_id : Z)
    (gw_points_df : list GwPoints) (gw_from gw_to g : Z) :
  overrides_checked db →
  gw_from ≤ g ≤ gw_to →
  (∃ r, r ∈ gw_points_df ∧ gp_event r = g) →
  ∃ res,
    filter (λ r, lr_event r = g)
      (compute_last_by_gw gw_points_df gw_from gw_to (load_overrides db league_id)) = [res] ∧
    (lr_reason res = None ↔
       t_overrides db !! (league_id, g) = None ∨
       ∃ n, t_overrides db !! (league_id, g) = Some ("none", n)) ∧
    (lr_reason res = Some Ejected ↔
       ∃ n, t_overrides db !! (league_id, g) = Some ("eject", n)) ∧
    (lr_reason res = Some Skipped ↔
       ∃ n, t_overrides db !! (league_id, g) = Some ("skip", n)).
Proof.
  intros Hdb Hg (r0 & Hr0 & Hev0).
  destruct (round_row_data gw_points_df (load_overrides db league_id) g r0 Hr0 Hev0)
    as (m & _ & Hrow).
  exists (round_row gw_points_df (load_overrides db league_id) g).
  split; [by apply rows_for_event|].
  rewrite Hrow. cbn [lr_reason]. rewrite load_overrides_lookup.
  destruct (t_overrides db !! (league_id, g)) as [[a n]|] eqn:Hk; simpl.
  - pose proof (Hdb _ _ _ Hk) as Ha. apply check_action_cases in Ha.
    destruct Ha as [Ha|[Ha|Ha]]; subst a; simpl; split_and!; split;
      first [done | by right; eexists | by eexists | by intros [?|[? ?]] | by intros [? ?]].
  - split_and!; split;
      first [done | by left | by intros [?|[? ?]] | by intros [? ?]].
Qed.

Lemma league_db_checked : overrides_checked league_db.
Proof.
  intros k a n Hk. cbn [league_db t_overrides] in Hk.
  apply lookup_singleton_Some in Hk as [_ [= <- <-]].
  by apply (bool_decide_unpack _); vm_compute.
Qed.

Lemma stored_action_decides_reason_witness :
  ∃ res,
    filter (λ r, lr_event r = 2)
      (compute_last_by_gw league_points 1 4 (load_overrides league_db 7)) = [res] ∧
    (lr_reason res = None ↔
       t_overrides league_db !! (7, 2) = None ∨
       ∃ n, t_overrides league_db !! (7, 2) = Some ("none", n)) ∧
    (lr_reason res = Some Ejected ↔
       ∃ n, t_overrides league_db !! (7, 2) = Some ("eject", n)) ∧
    (lr_reason res = Some Skipped ↔
       ∃ n, t_overrides league_db !! (7, 2) = Some ("skip", n)).
Proof.
  apply (stored_action_decides_reason league_db 7 league_points 1 4 2).
  - apply league_db_checked.
  - lia.
  - exists (gp 1 2 10). split; [|reflexivity]. do 3 right. left.
Defined.

(** [load_forfeits] returns at most one note per entry. *)
Lemma load_forfeits_NoDup (db : Db) (league_id : Z) :
  NoDup (load_forfeits db league_id).*1.
Proof.
  unfold load_forfeits. rewrite <- list_fmap_compose.
  apply NoDup_fmap_2_strong.
  - intros [[l1 e1] v1] [[l2 e2] v2] [Hl1 Ht1]%league_rows_elem [Hl2 Ht2]%league_rows_elem.
    simpl in *. intros ->. subst. rewrite Ht1 in Ht2. by injection Ht2 as ->.
  - apply NoDup_filter, NoDup_map_to_list.
Qed.

(** X5. In the overview built from the stored notes there is one row per
    entry; when the league has no stored note every [forfeits] cell is the
    empty text, and otherwise the cell of an entry is its stored note and
    is missing for an entry without one. *)
Theorem overview_forfeits_from_store (db : Db) (league_id : Z)
    (entries_df : list Entry) (last_df : list LastRow) :
  o_entry <$> merge_overview entries_df last_df (Some (load_forfeits db league_id))
  = entries_df ∧
  Forall (λ o, o_forfeits o
               = if decide (load_forfeits db league_id = []) then Some ""
                 else t_forfeits db !! (league_id, en_entry (o_entry o)))
         (merge_overview entries_df last_df (Some (load_forfeits db league_id))).
Proof.
  pose proof (load_forfeits_NoDup db league_id) as Hnd.
  rewrite merge_overview_rows by done. split.
  - rewrite <- list_fmap_compose. apply list_fmap_id.
  - apply Forall_fmap, Forall_forall. intros en _. cbn [o_forfeits o_entry compose].
    unfold forfeits_cell.
    destruct (load_forfeits db league_id) as [|n ns] eqn:Hload; [done|].
    rewrite decide_False by done. rewrite <- Hload in *.
    destruct (note_of_spec _ (en_entry en) Hnd) as [Hsome Hnone].
    destruct (t_forfeits db !! (league_id, en_entry en)) as [v|] eqn:Ht.
    + by apply Hsome, elem_of_load_forfeits.
    + apply Hnone. intros ([e v] & He & Hin)%list_elem_of_fmap. simpl in He. subst e.
      apply elem_of_load_forfeits in Hin. congruence.
Qed.

Lemma save_forfeits_lookup (db : Db) (league_id : Z) (df : list (Z * option string))
    (k : Z * Z) :
  t_forfeits (save_forfeits db league_id df) !! k
  = if decide (k.1 = league_id)
    then match last (filter (λ r, r.1 = k.2) df) with
         | Some r => Some (py_str_cell r.2)
         | None => t_forfeits db !! k
         end
    else t_forfeits db !! k.
Proof.
  destruct df as [|r df].
  - simpl. by case_decide.
  - cbn [save_forfeits t_forfeits].
    apply (foldl_insert_pair_lookup league_id (λ r, py_str_cell r.2)).
Qed.

(** X6. After [save_forfeits] the league holds, for an entry of the saved
    frame, the text of the last row of that entry ([str] of the cell, so
    ["nan"] for a missing cell), and for any other entry the note it had;
    the other leagues and the overrides are unchanged, and an empty frame
    changes nothing. *)
Theorem save_forfeits_then_load (db : Db) (league_id : Z) (df : list (Z * option string)) :
  (∀ e v, (e, v) ∈ load_forfeits (save_forfeits db league_id df) league_id ↔
          match last (filter (λ r, r.1 = e) df) with
          | Some r => v = py_str_cell r.2
          | None => (e, v) ∈ load_forfeits db league_id
          end) ∧
  (∀ l e v, l ≠ league_id →
            (e, v) ∈ load_forfeits (save_forfeits db league_id df) l ↔
            (e, v) ∈ load_forfeits db l) ∧
  (∀ l, load_overrides (save_forfeits db league_id df) l = load_overrides db l) ∧
  save_forfeits db league_id [] = db.
Proof.
  pose proof (save_forfeits_lookup db league_id df) as Hlook.
  split_and!.
  - intros e v. rewrite !elem_of_load_forfeits, Hlook. cbn [fst snd].
    rewrite decide_True by done.
    destruct (last _); [|by rewrite elem_of_load_forfeits].
    split; [by intros [= <-]|by intros ->].
  - intros l e v Hl. rewrite !elem_of_load_forfeits, Hlook. cbn [fst].
    by rewrite decide_False.
  - intros l. by destruct df.
  - done.
Qed.

(** X7. Saving a non-empty frame and reloading gives every entry of the
    frame a text note in the next overview: the cell is never missing, it
    is [str] of the cell that was saved last for the entry. *)
Theorem saved_notes_come_back (db : Db) (league_id : Z) (df : list (Z * option string))
    (entries_df : list Entry) (last_df : list LastRow) :
  (∀ en, en ∈ entries_df → en_entry en ∈ df.*1) →
  Forall (λ o, ∃ r, last (filter (λ r, r.1 = en_entry (o_entry o)) df) = Some r ∧
                    o_forfeits o = Some (py_str_cell r.2))
         (merge_overview entries_df last_df
            (Some (load_forfeits (save_forfeits db league_id df) league_id))).
Proof.
  intros Hcov.
  pose proof (load_forfeits_NoDup (save_forfeits db league_id df) league_id) as Hnd.
  rewrite merge_overview_rows by done.
  apply Forall_fmap, Forall_forall. intros en Hen. cbn [o_forfeits o_entry compose].
  pose proof (Hcov en Hen) as Hin.
  apply list_elem_of_fmap in Hin as ([e c] & He & Hr). simpl in He. subst e.
  destruct (last (filter (λ r, r.1 = en_entry en) df)) as [r|] eqn:Hlast.
  2: { apply last_None in Hlast.
       assert ((en_entry en, c) ∈ filter (λ r : Z * option string, r.1 = en_entry en) df) as Hf
         by by apply list_elem_of_filter.
       rewrite Hlast in Hf. by apply elem_of_nil in Hf. }
  exists r. split; [done|].
  assert ((en_entry en, py_str_cell r.2)
          ∈ load_forfeits (save_forfeits db league_id df) league_id) as Hload
    by (rewrite elem_of_load_forfeits, save_forfeits_lookup; cbn [fst snd];
        by rewrite decide_True, Hlast by done).
  unfold forfeits_cell.
  destruct (load_forfeits (save_forfeits db league_id df) league_id) as [|n ns] eqn:Hl;
    [by apply elem_of_nil in Hload|].
  by apply (note_of_spec _ _ Hnd).
Qed.

Lemma saved_notes_come_back_witness :
  Forall (λ o, ∃ r, last (filter (λ r, r.1 = en_entry (o_entry o))
                            [(1, Some "owes a round"); (2, None); (5, Some "")]) = Some r ∧
                    o_forfeits o = Some (py_str_cell r.2))
         (merge_overview league_entries league_last
            (Some (load_forfeits
                     (save_forfeits league_db 7
                        [(1, Some "owes a round"); (2, None); (5, Some "")]) 7))).
Proof.
  apply (saved_notes_come_back league_db 7
           [(1, Some "owes a round"); (2, None); (5, Some "")] league_entries league_last).
  apply Forall_forall. by apply (bool_decide_unpack _); vm_compute.
Defined.

(** X8. Submitting the override form always commits, whatever the radio
    value: the stored action is ["none"] for ["None"], ["skip"] for
    ["Skip"] and ["eject"] otherwise, and the override of the chosen
    gameweek is replaced by it. *)
Theorem override_form_commits (db : Db) (league_id ov_gw : Z) (ov_action ov_note : string) :
  ∃ db' action,
    override_form_submit db league_id ov_gw ov_action ov_note = Committed db' ∧
    check_action action ∧
    (ov_action = "None" → action = "none") ∧
    (ov_action = "Skip" → action = "skip") ∧
    (ov_action ≠ "None" → ov_action ≠ "Skip" → action = "eject") ∧
    load_overrides db' league_id
    = <[ov_gw := {| ov_action := action; ov_note := ov_note |}]> (load_overrides db league_id).
Proof.
  unfold override_form_submit.
  destruct (decide (ov_action = "None")) as [->|Hn];
    [|destruct (decide (ov_action = "Skip")) as [->|Hs]].
  - destruct (set_override_commits db league_id ov_gw "none" ov_note)
      as (db' & Hset & Hload & _); [by apply check_action_cases; left|].
    exists db', "none". split_and!; try done. by apply check_action_cases; left.
  - destruct (set_override_commits db league_id ov_gw "skip" ov_note)
      as (db' & Hset & Hload & _); [by apply check_action_cases; right; left|].
    exists db', "skip". split_and!; try done. by apply check_action_cases; right; left.
  - destruct (set_override_commits db league_id ov_gw "eject" ov_note)
      as (db' & Hset & Hload & _); [by apply check_action_cases; right; right|].
    exists db', "eject". split_and!; try done. by apply check_action_cases; right; right.
Qed.

(** ** Fetching *)

Lemma build_rows_Some (fetch_entry_history : Z → option History) (entry_ids : list Z)
    (rows out : list GwPoints) :
  build_rows fetch_entry_history entry_ids rows = Some out ↔
  (∀ id, id ∈ entry_ids → is_Some (fetch_entry_history id)) ∧
  out = rows ++ (entry_ids ≫= entry_rows fetch_entry_history).
Proof.
  revert rows out. induction entry_ids as [|id ids IH]; intros rows out.
  - simpl. rewrite app_nil_r. split.
    + intros [= ->]. split; [|done]. by intros id ?%elem_of_nil.
    + by intros [_ ->].
  - cbn [build_rows]. rewrite bind_cons.
    destruct (fetch_entry_history id) as [hist|] eqn:Hf.
    + assert (entry_rows fetch_entry_history id = history_rows id hist) as ->
        by (unfold entry_rows; by rewrite Hf).
      rewrite IH, app_assoc. split.
      * intros [Hall ->]. split; [|done].
        intros id' [->|?]%elem_of_cons; [by rewrite Hf|by apply Hall].
      * intros [Hall ->]. split; [|done]. intros id' ?. apply Hall. by right.
    + split; [done|]. intros [Hall _].
      destruct (Hall id) as [? ?]; [left|congruence].
Qed.

Lemma build_rows_None (fetch_entry_history : Z → option History) (entry_ids : list Z)
    (rows : list GwPoints) :
  build_rows fetch_entry_history entry_ids rows = None ↔
  ∃ id, id ∈ entry_ids ∧ fetch_entry_history id = None.
Proof.
  revert rows. induction entry_ids as [|id ids IH]; intros rows.
  - simpl. split; [done|]. by intros (id & ?%elem_of_nil & _).
  - cbn [build_rows]. destruct (fetch_entry_history id) as [hist|] eqn:Hf.
    + rewrite IH. split.
      * intros (id' & ? & ?). exists id'. split; [by right|done].
      * intros (id' & [->|?]%elem_of_cons & Hn); [congruence|by exists id'].
    + split; [|done]. intros _. exists id. split; [left|done].
Qed.

Lemma elem_of_entry_rows (fetch_entry_history : Z → option History) (entry_id : Z)
    (r : GwPoints) :
  r ∈ entry_rows fetch_entry_history entry_id ↔
  ∃ hist c, fetch_entry_history entry_id = Some hist ∧
            c ∈ default [] (h_current hist) ∧
            r = {| gp_entry := entry_id; gp_event := c_event c;
                   gp_gw_points := c_points c; gp_total_points := c_total_points c |}.
Proof.
  unfold entry_rows. destruct (fetch_entry_history entry_id) as [hist|]; simpl.
  - unfold history_rows. rewrite list_elem_of_fmap. split.
    + intros (c & -> & Hc). by exists hist, c.
    + intros (hist' & c & [= <-] & Hc & ->). by exists c.
  - split; [by intros ?%elem_of_nil|]. by intros (? & ? & ? & _).
Qed.

Lemma elem_of_build_gw_points (fetch_entry_history : Z → option History)
    (entries_df : list Entry) (gw_points_df : list GwPoints) (r : GwPoints) :
  build_gw_points fetch_entry_history entries_df = Some gw_points_df →
  r ∈ gw_points_df ↔
  gp_entry r ∈ en_entry <$> entries_df ∧ r ∈ entry_rows fetch_entry_history (gp_entry r).
Proof.
  unfold build_gw_points. intros [_ ->]%build_rows_Some.
  rewrite app_nil_l, list_elem_of_bind. split.
  - intros (id & Hr & Hid).
    assert (gp_entry r = id) as ->; [|done].
    apply elem_of_entry_rows in Hr as (hist & c & _ & _ & ->). done.
  - intros [Hid Hr]. by exists (gp_entry r).
Qed.

Lemma build_gw_points_None (fetch_entry_history : Z → option History)
    (entries_df : list Entry) :
  build_gw_points fetch_entry_history entries_df = None ↔
  ∃ en, en ∈ entries_df ∧ fetch_entry_history (en_entry en) = None.
Proof.
  unfold build_gw_points. rewrite build_rows_None. split.
  - intros (id & (en & -> & Hen)%list_elem_of_fmap & Hn). by exists en.
  - intros (en & Hen & Hn). exists (en_entry en). split; [|done].
    by apply list_elem_of_fmap_2.
Qed.

(** X9. [build_gw_points] raises exactly when the request of some entry
    raises.  Otherwise its rows are, for every entry of [entries_df] and
    every item of that entry's ["current"] list, the row of the entry and
    the item, and no other row; a history without ["current"] gives none. *)
Theorem build_gw_points_rows (fetch_entry_history : Z → option History)
    (entries_df : list Entry) :
  (build_gw_points fetch_entry_history entries_df = None ↔
   ∃ en, en ∈ entries_df ∧ fetch_entry_history (en_entry en) = None) ∧
  (∀ gw_points_df,
     build_gw_points fetch_entry_history entries_df = Some gw_points_df →
     ∀ r, r ∈ gw_points_df ↔
          ∃ en hist c,
            en ∈ entries_df ∧ fetch_entry_history (en_entry en) = Some hist ∧
            c ∈ default [] (h_current hist) ∧
            r = {| gp_entry := en_entry en; gp_event := c_event c;
                   gp_gw_points := c_points c; gp_total_points := c_total_points c |}).
Proof.
  split; [apply build_gw_points_None|].
  - intros gw Hgw r. rewrite (elem_of_build_gw_points _ _ _ _ Hgw), elem_of_entry_rows.
    split.
    + intros [(en & Hid & Hen)%list_elem_of_fmap (hist & c & Hf & Hc & Hr)].
      exists en, hist, c. rewrite <- Hid. by split_and!.
    + intros (en & hist & c & Hen & Hf & Hc & ->). cbn [gp_entry].
      split; [by apply list_elem_of_fmap_2|]. by exists hist, c.
Qed.

(** ** From the fetched frames to the overview *)

Lemma last_entries_in_frame (gw_points_df : list GwPoints) (gw_from gw_to : Z)
    (overrides : gmap Z Override) (res : LastRow) (e : Z) :
  res ∈ compute_last_by_gw gw_points_df gw_from gw_to overrides →
  e ∈ lr_last_entries res →
  ∃ r, r ∈ gw_points_df ∧ gp_event r = lr_event res ∧ gp_entry r = e ∧
       lr_min_points res = Some (gp_gw_points r) ∧
       ∀ r', r' ∈ gw_points_df → gp_event r' = lr_event res →
             gp_gw_points r ≤ gp_gw_points r'.
Proof.
  intros [_ Hres]%elem_of_compute_last_by_gw.
  remember (lr_event res) as g eqn:Hg. clear Hg. subst res.
  destruct (rows_of_event gw_points_df g) as [|r0 sub] eqn:Hsub.
  - unfold round_row. rewrite Hsub. by intros ?%elem_of_nil.
  - assert (r0 ∈ rows_of_event gw_points_df g) as [Hr0 Hev0]%elem_of_rows_of_event
      by (rewrite Hsub; left).
    destruct (round_row_data gw_points_df overrides g r0 Hr0 Hev0) as (m & Hm & ->).
    cbn [lr_last_entries lr_event lr_min_points].
    apply min_of_event in Hm as [_ Hle].
    unfold apply_override. intros He.
    assert (e ∈ entries_at (rows_of_event gw_points_df g) (Some m)) as Hin.
    { destruct (overrides !! g) as [ov|]; [|done].
      repeat case_decide; simpl in He; try done; by apply elem_of_nil in He. }
    apply elem_of_entries_at in Hin as (r & Hr & Hev & Hen & Hpts).
    exists r. subst m. by split_and!.
Qed.

(** X10. Whatever the overrides are, an entry the resolver lists for a
    gameweek has a row of that gameweek in the frame whose points are the
    row's [min_points], and no row of the gameweek has fewer points. *)
Theorem last_entries_are_minimal (gw_points_df : list GwPoints) (gw_from gw_to : Z)
    (overrides : gmap Z Override) (res : LastRow) (e : Z) :
  res ∈ compute_last_by_gw gw_points_df gw_from gw_to overrides →
  e ∈ lr_last_entries res →
  ∃ r, r ∈ gw_points_df ∧ gp_event r = lr_event res ∧ gp_entry r = e ∧
       lr_min_points res = Some (gp_gw_points r) ∧
       ∀ r', r' ∈ gw_points_df → gp_event r' = lr_event res →
             gp_gw_points r ≤ gp_gw_points r'.
Proof. apply last_entries_in_frame. Qed.

Lemma last_entries_are_minimal_witness :
  ∃ r, r ∈ league_points ∧ gp_event r = lr_event (mk_last 3 (Some 25) [1; 2] None) ∧
       gp_entry r = 2 ∧
       lr_min_points (mk_last 3 (Some 25) [1; 2] None) = Some (gp_gw_points r) ∧
       ∀ r', r' ∈ league_points →
             gp_event r' = lr_event (mk_last 3 (Some 25) [1; 2] None) →
             gp_gw_points r ≤ gp_gw_points r'.
Proof.
  apply (last_entries_are_minimal league_points 1 4 league_overrides
           (mk_last 3 (Some 25) [1; 2] None) 2).
  - do 2 right. left.
  - right. left.
Defined.

(** X11. For the frame [build_gw_points] returns for distinct entries,
    and notes with one row per entry, the sum of [times_last] over the
    overview equals the number of last places of the rows with reason
    [None]: no last place is lost, every listed entry being an entry of
    [entries_df]. *)
Theorem fetched_times_last_conservation (fetch_entry_history : Z → option History)
    (entries_df : list Entry) (gw_points_df : list GwPoints) (gw_from gw_to : Z)
    (overrides : gmap Z Override) (forfeits_df : option (list (Z * string))) :
  build_gw_points fetch_entry_history entries_df = Some gw_points_df →
  NoDup (en_entry <$> entries_df) →
  unique_notes forfeits_df →
  sum_list_with o_times_last
    (merge_overview entries_df
       (compute_last_by_gw gw_points_df gw_from gw_to overrides) forfeits_df)
  = sum_list_with (λ row, length (lr_last_entries row))
      (filter (λ row, lr_reason row = None)
         (compute_last_by_gw gw_points_df gw_from gw_to overrides)).
Proof.
  intros Hgw Hids Hnotes. rewrite merge_overview_rows by done.
  rewrite sum_list_with_fmap. simpl. rewrite <- length_last_expanded.
  rewrite <- (sum_events_of (en_entry <$> entries_df)
                (last_expanded (compute_last_by_gw gw_points_df gw_from gw_to overrides))).
  - by rewrite sum_list_with_fmap.
  - done.
  - intros p (row & Hrow & _ & He & _)%elem_of_last_expanded.
    destruct (last_entries_in_frame _ _ _ _ _ _ Hrow He) as (r & Hr & _ & <- & _).
    by apply (elem_of_build_gw_points _ _ _ _ Hgw) in Hr as [? _].
Qed.

Lemma fetched_times_last_conservation_witness :
  sum_list_with o_times_last
    (merge_overview league_entries
       (compute_last_by_gw
          league_fetched 1 2 league_overrides)
       league_notes)
  = sum_list_with (λ row, length (lr_last_entries row))
      (filter (λ row, lr_reason row = None)
         (compute_last_by_gw
            league_fetched 1 2 league_overrides)).
Proof.
  apply (fetched_times_last_conservation league_fetch_history league_entries
           league_fetched 1 2 league_overrides league_notes).
  - reflexivity.
  - by apply (bool_decide_unpack _); vm_compute.
  - cbv [unique_notes league_notes]. by apply (bool_decide_unpack _); vm_compute.
Defined.

Lemma filter_fmap_unique {A} (f : A → Z) (l : list A) (k : Z) :
  NoDup (f <$> l) → (length (filter (λ x, f x = k) l) ≤ 1)%nat.
Proof.
  induction l as [|x l IH]; simpl; intros Hnd; [lia|].
  apply NoDup_cons in Hnd as [Hx Hnd]. rewrite filter_cons. case_decide as Hk.
  - rewrite filter_fmap_none; [simpl; lia|].
    intros y Hy Hfy. apply Hx. rewrite Hk, <- Hfy. by apply list_elem_of_fmap_2.
  - by apply IH.
Qed.

(** The entries of a row are picked, in order, from the rows of its
    gameweek. *)
Lemma round_row_last_entries_sublist (gw_points_df : list GwPoints)
    (overrides : gmap Z Override) (g : Z) :
  lr_last_entries (round_row gw_points_df overrides g)
  `sublist_of` gp_entry <$> rows_of_event gw_points_df g.
Proof.
  unfold round_row. destruct (rows_of_event gw_points_df g) as [|r sub]; [done|].
  set (all := entries_at (r :: sub) _).
  assert (all `sublist_of` gp_entry <$> r :: sub) as Hall
    by (apply fmap_sublist, sublist_filter).
  unfold apply_override. destruct (overrides !! g) as [ov|]; [|done].
  repeat case_decide; simpl; try done; apply sublist_nil_l.
Qed.

Lemma entry_rows_entry (fetch_entry_history : Z → option History) (id : Z) (r : GwPoints) :
  r ∈ entry_rows fetch_entry_history id → gp_entry r = id.
Proof. by intros (hist & c & _ & _ & ->)%elem_of_entry_rows. Qed.

(** Distinct entries, each with distinct events, have at most one row per
    entry in a gameweek. *)
Lemma NoDup_entries_of_event (fetch_entry_history : Z → option History)
    (ids : list Z) (g : Z) :
  NoDup ids →
  (∀ id, id ∈ ids → NoDup (gp_event <$> entry_rows fetch_entry_history id)) →
  NoDup (gp_entry <$> rows_of_event (ids ≫= entry_rows fetch_entry_history) g).
Proof.
  unfold rows_of_event.
  induction 1 as [|id ids Hid Hnd IH]; intros Hev; [constructor|].
  rewrite bind_cons, filter_app, fmap_app. apply NoDup_app. split_and!.
  - pose proof (filter_fmap_unique gp_event (entry_rows fetch_entry_history id) g
                  (Hev id ltac:(left))) as Hlen.
    destruct (filter _ (entry_rows fetch_entry_history id)) as [|r [|r' rs]];
      simpl in *; [constructor| |lia].
    apply NoDup_singleton.
  - intros e (r & -> & [_ Hr]%list_elem_of_filter)%list_elem_of_fmap.
    apply entry_rows_entry in Hr as ->.
    intros (r' & Hid' & [_ Hr']%list_elem_of_filter)%list_elem_of_fmap.
    apply list_elem_of_bind in Hr' as (id' & Hr' & Hin).
    apply entry_rows_entry in Hr'. congruence.
  - apply IH. intros id' Hid'. apply Hev. by right.
Qed.

(** X12. When the entries are distinct and the history of each has one
    item per event, no row of the resolver lists an entry twice, so in the
    overview [times_last] is the number of rows with reason [None] that
    list the entry. *)
Theorem fetched_last_entries_distinct (fetch_entry_history : Z → option History)
    (entries_df : list Entry) (gw_points_df : list GwPoints) (gw_from gw_to : Z)
    (overrides : gmap Z Override) :
  build_gw_points fetch_entry_history entries_df = Some gw_points_df →
  NoDup (en_entry <$> entries_df) →
  (∀ en hist, en ∈ entries_df → fetch_entry_history (en_entry en) = Some hist →
              NoDup (c_event <$> default [] (h_current hist))) →
  Forall (λ row, NoDup (lr_last_entries row))
         (compute_last_by_gw gw_points_df gw_from gw_to overrides) ∧
  ∀ forfeits_df,
    unique_notes forfeits_df →
    Forall (λ o, o_times_last o
                 = length (rounds_last
                             (compute_last_by_gw gw_points_df gw_from gw_to overrides)
                             (en_entry (o_entry o))))
           (merge_overview entries_df
              (compute_last_by_gw gw_points_df gw_from gw_to overrides) forfeits_df).
Proof.
  intros Hgw Hids Hev.
  assert (Forall (λ row, NoDup (lr_last_entries row))
            (compute_last_by_gw gw_points_df gw_from gw_to overrides)) as Hsets.
  { apply Forall_forall. intros row [_ ->]%elem_of_compute_last_by_gw.
    eapply sublist_NoDup; [|apply round_row_last_entries_sublist].
    unfold build_gw_points in Hgw. apply build_rows_Some in Hgw as [Hall ->].
    rewrite app_nil_l. apply NoDup_entries_of_event; [done|].
    intros id (en & -> & Hen)%list_elem_of_fmap. unfold entry_rows.
    destruct (fetch_entry_history (en_entry en)) as [hist|] eqn:Hf; [|constructor].
    simpl. unfold history_rows. rewrite <- list_fmap_compose. by apply (Hev en). }
  split; [done|].
  intros forfeits_df Hnotes. rewrite merge_overview_rows by done.
  apply Forall_fmap, Forall_forall. intros en _. cbn [o_times_last o_entry compose].
  by rewrite events_of_last_expanded, length_fmap.
Qed.

Lemma fetched_last_entries_distinct_witness :
  Forall (λ row, NoDup (lr_last_entries row))
         (compute_last_by_gw league_fetched 1 2 league_overrides) ∧
  ∀ forfeits_df,
    unique_notes forfeits_df →
    Forall (λ o, o_times_last o
                 = length (rounds_last
                             (compute_last_by_gw league_fetched 1 2 league_overrides)
                             (en_entry (o_entry o))))
           (merge_overview league_entries
              (compute_last_by_gw league_fetched 1 2 league_overrides) forfeits_df).
Proof.
  apply (fetched_last_entries_distinct league_fetch_history league_entries
           league_fetched 1 2 league_overrides).
  - reflexivity.
  - by apply (bool_decide_unpack _); vm_compute.
  - intros en hist Hen.
    repeat (apply elem_of_cons in Hen as [->|Hen];
            [intros [= <-]; by apply (bool_decide_unpack _); vm_compute|]).
    by apply elem_of_nil in Hen.
Defined.

(** The loop of [get_all_entries] over the pages [ps], the first of which
    is page [page]: every page but the last says [has_next]. *)
Lemma get_all_entries_from_pages (fetch_classic_league : Z → Z → option StandingsPage)
    (league_id : Z) (ps : list StandingsPage) :
  ∀ (fuel : nat) (page : Z) (entries : list Entry) (league_info : option LeagueInfo),
    ps ≠ [] →
    (∀ i pg, ps !! i = Some pg →
             fetch_classic_league league_id (page + Z.of_nat i) = Some pg ∧
             sp_has_next pg = bool_decide (S i < length ps)%nat) →
    get_all_entries_from fuel fetch_classic_league league_id page entries league_info
    = if decide (length ps ≤ fuel)%nat
      then Fetch_done
             (entries ++ (ps ≫= sp_results),
              Some (from_option id (default no_league_info (head ps ≫= sp_league))
                                league_info))
      else Fetch_pending.
Proof.
  induction ps as [|pg rest IH]; intros fuel page entries league_info Hne Hps; [done|].
  destruct fuel as [|fuel].
  { rewrite decide_False by (simpl; lia). done. }
  destruct (Hps 0%nat pg eq_refl) as [Hfetch Hnext].
  rewrite Z.add_0_r in Hfetch. cbn [get_all_entries_from]. rewrite Hfetch, Hnext.
  destruct rest as [|pg' rest'].
  - rewrite bool_decide_false by (simpl; lia).
    rewrite decide_True by (simpl; lia).
    rewrite bind_cons, app_nil_r. by destruct league_info.
  - rewrite bool_decide_true by (simpl; lia).
    rewrite IH; [|done|].
    + destruct (decide (length (pg' :: rest') ≤ fuel)%nat);
        [rewrite decide_True by (simpl in *; lia)
        |rewrite decide_False by (simpl in *; lia)]; [|done].
      do 2 f_equal.
      * by rewrite (bind_cons _ pg), <- app_assoc.
      * by destruct league_info.
    + intros i pgi Hi. destruct (Hps (S i) pgi Hi) as [Hf Hn]. split.
      * rewrite <- Hf. f_equal. lia.
      * rewrite Hn. apply bool_decide_ext. simpl. lia.
Qed.

(** X13. When the server holds the pages [ps] of a league, numbered from
    1, and every page but the last says [has_next], [get_all_entries]
    returns the results of all the pages in page order, with the league
    info of the first page (the empty dict when it has none), as soon as it
    may take one turn per page; with fewer turns it has not finished. *)
Theorem get_all_entries_pages (fetch_classic_league : Z → Z → option StandingsPage)
    (league_id : Z) (ps : list StandingsPage) (fuel : nat) :
  ps ≠ [] →
  (∀ i pg, ps !! i = Some pg →
           fetch_classic_league league_id (1 + Z.of_nat i) = Some pg ∧
           sp_has_next pg = bool_decide (S i < length ps)%nat) →
  ((length ps ≤ fuel)%nat →
   get_all_entries fuel fetch_classic_league league_id
   = Fetch_done (ps ≫= sp_results,
                 Some (default no_league_info (head ps ≫= sp_league)))) ∧
  ((fuel < length ps)%nat →
   get_all_entries fuel fetch_classic_league league_id = Fetch_pending).
Proof.
  intros Hne Hps. unfold get_all_entries.
  rewrite (get_all_entries_from_pages _ _ ps) by done.
  split; intros Hfuel.
  - by rewrite decide_True.
  - rewrite decide_False; [done|lia].
Qed.

Lemma league_pages_served (i : nat) (pg : StandingsPage) :
  league_pages !! i = Some pg →
  league_fetch_classic 7 (1 + Z.of_nat i) = Some pg ∧
  sp_has_next pg = bool_decide (S i < length league_pages)%nat.
Proof.
  destruct i as [|[|i]]; [| |done]; intros [= <-]; by vm_compute.
Qed.

Lemma get_all_entries_pages_witness :
  ((length league_pages ≤ 2)%nat →
   get_all_entries 2 league_fetch_classic 7
   = Fetch_done (league_pages ≫= sp_results,
                 Some (default no_league_info (head league_pages ≫= sp_league)))) ∧
  ((2 < length league_pages)%nat →
   get_all_entries 2 league_fetch_classic 7 = Fetch_pending).
Proof.
  apply (get_all_entries_pages league_fetch_classic 7 league_pages 2).
  - done.
  - apply league_pages_served.
Defined.

Example league_get_all_entries :
  get_all_entries 5 league_fetch_classic 7
  = Fetch_done (league_entries,
                Some {| li_name := Some "Friends"; li_start_event := None |}).
Proof. reflexivity. Qed.

(** X14. A server that says [has_next] on every page keeps the loop of
    [get_all_entries] running: it has not returned after any number of
    turns. *)
Theorem get_all_entries_endless (fetch_classic_league : Z → Z → option StandingsPage)
    (league_id : Z) :
  (∀ page, ∃ pg, fetch_classic_league league_id page = Some pg ∧ sp_has_next pg = true) →
  ∀ fuel, get_all_entries fuel fetch_classic_league league_id = Fetch_pending.
Proof.
  intros Hnext fuel. unfold get_all_entries.
  generalize 1 (@nil Entry) (@None LeagueInfo).
  induction fuel as [|fuel IH]; intros page entries league_info; [done|].
  cbn [get_all_entries_from].
  destruct (Hnext page) as (pg & -> & ->). apply IH.
Qed.

Lemma get_all_entries_endless_witness :
  get_all_entries 1000
    (λ _ _, Some {| sp_league := None; sp_results := [mk_entry 1 "A"];
                    sp_has_next := true |}) 7
  = Fetch_pending.
Proof.
  apply (get_all_entries_endless
           (λ _ _, Some {| sp_league := None; sp_results := [mk_entry 1 "A"];
                           sp_has_next := true |}) 7).
  intros page. by eexists.
Defined.

(** ** The page *)




Lemma start_latest_is_Some (league_info : LeagueInfo) (gw_points_df : list GwPoints) :
  gw_points_df ≠ [] →
  is_Some (start_event league_info gw_points_df) ∧ is_Some (latest_event gw_points_df).
Proof.
  unfold start_event, latest_event. destruct gw_points_df; [done|]. intros _.
  split; by eexists.
Qed.

Lemma start_latest_None (league_info : LeagueInfo) :
  start_event league_info [] = None ∧ latest_event [] = None.
Proof. done. Qed.





Lemma merge_overview_entries (entries_df : list Entry) (last_df : list LastRow)
    (forfeits_df : option (list (Z * string))) :
  unique_notes forfeits_df →
  o_entry <$> merge_overview entries_df last_df forfeits_df = entries_df.
Proof.
  intros Hnd. rewrite merge_overview_rows by done.
  rewrite <- list_fmap_compose. apply list_fmap_id.
Qed.

Lemma build_gw_points_nil (fetch_entry_history : Z → option History)
    (entries_df : list Entry) :
  build_gw_points fetch_entry_history entries_df = Some [] ↔
  ∀ en, en ∈ entries_df →
        ∃ hist, fetch_entry_history (en_entry en) = Some hist ∧
                default [] (h_current hist) = [].
Proof.
  unfold build_gw_points. rewrite build_rows_Some, app_nil_l. split.
  - intros [Hall Hnil] en Hen.
    destruct (Hall (en_entry en)) as [hist Hf]; [by apply list_elem_of_fmap_2|].
    exists hist. split; [done|].
    destruct (default [] (h_current hist)) as [|c cs] eqn:Hc; [done|].
    assert ({| gp_entry := en_entry en; gp_event := c_event c;
               gp_gw_points := c_points c; gp_total_points := c_total_points c |}
            ∈ (en_entry <$> entries_df) ≫= entry_rows fetch_entry_history) as Hin.
    { apply list_elem_of_bind. exists (en_entry en).
      split; [|by apply list_elem_of_fmap_2].
      apply elem_of_entry_rows. exists hist, c. rewrite Hc. split_and!; [done|left|done]. }
    rewrite <- Hnil in Hin. by apply elem_of_nil in Hin.
  - intros Hall. split.
    + intros id (en & -> & Hen)%list_elem_of_fmap.
      destruct (Hall en Hen) as (hist & -> & _). by eexists.
    + symmetry. apply elem_of_nil_inv.
      intros r (id & Hr & (en & -> & Hen)%list_elem_of_fmap)%list_elem_of_bind.
      apply elem_of_entry_rows in Hr as (hist & c & Hf & Hc & _).
      destruct (Hall en Hen) as (hist' & Hf' & Hnil).
      rewrite Hf in Hf'. injection Hf' as <-. rewrite Hnil in Hc.
      by apply elem_of_nil in Hc.
Qed.

(** X15. Once the entries are fetched, the script ends in one of four
    ways.  It stops with "No entries found for this league." exactly for a
    league without entries; it raises when a history request raises; it
    stops with "No gameweek data yet." when every history is empty; and
    otherwise it shows a non-empty frame of points and an overview with
    one row per entry. *)
Theorem page_outcome (fuel : nat) (fetch_classic_league : Z → Z → option StandingsPage)
    (fetch_entry_history : Z → option History) (db : Db) (league_id : Z)
    (entries_df : list Entry) (league_info : option LeagueInfo) :
  get_all_entries fuel fetch_classic_league league_id
  = Fetch_done (entries_df, league_info) →
  match page fuel fetch_classic_league fetch_entry_history db league_id with
  | Fetch_pending => False
  | Fetch_raised =>
      entries_df ≠ [] ∧
      ∃ en, en ∈ entries_df ∧ fetch_entry_history (en_entry en) = None
  | Fetch_done (Stopped warning) =>
      (entries_df = [] ∧ warning = "No entries found for this league.") ∨
      (entries_df ≠ [] ∧ warning = "No gameweek data yet." ∧
       ∀ en, en ∈ entries_df →
             ∃ hist, fetch_entry_history (en_entry en) = Some hist ∧
                     default [] (h_current hist) = [])
  | Fetch_done (Shown gw_points_df last_df ov) =>
      entries_df ≠ [] ∧ gw_points_df ≠ [] ∧
      build_gw_points fetch_entry_history entries_df = Some gw_points_df ∧
      o_entry <$> ov = entries_df
  end.
Proof.
  intros Hget. unfold page. rewrite Hget.
  destruct entries_df as [|en0 ens]; [by left|].
  destruct (build_gw_points fetch_entry_history (en0 :: ens)) as [gw|] eqn:Hgw.
  - destruct gw as [|r gw].
    + cbn. right. split_and!; [done|done|]. by apply build_gw_points_nil.
    + destruct (start_latest_is_Some (default no_league_info league_info) (r :: gw))
        as [[s ->] [hi ->]]; [done|].
      split_and!; [done|done|done|].
      apply merge_overview_entries, load_forfeits_NoDup.
  - split; [done|]. by apply build_gw_points_None.
Qed.

Lemma page_outcome_witness :
  match page 5 league_fetch_classic league_fetch_history league_db 7 with
  | Fetch_pending => False
  | Fetch_raised =>
      league_entries ≠ [] ∧
      ∃ en, en ∈ league_entries ∧ league_fetch_history (en_entry en) = None
  | Fetch_done (Stopped warning) =>
      (league_entries = [] ∧ warning = "No entries found for this league.") ∨
      (league_entries ≠ [] ∧ warning = "No gameweek data yet." ∧
       ∀ en, en ∈ league_entries →
             ∃ hist, league_fetch_history (en_entry en) = Some hist ∧
                     default [] (h_current hist) = [])
  | Fetch_done (Shown gw_points_df last_df ov) =>
      league_entries ≠ [] ∧ gw_points_df ≠ [] ∧
      build_gw_points league_fetch_history league_entries = Some gw_points_df ∧
      o_entry <$> ov = league_entries
  end.
Proof.
  apply (page_outcome 5 league_fetch_classic league_fetch_history league_db 7
           league_entries (Some {| li_name := Some "Friends"; li_start_event := None |})).
  reflexivity.
Defined.

Example league_page :
  page 5 league_fetch_classic league_fetch_history league_db 7
  = Fetch_done
      (Shown league_fetched
         [mk_last 1 (Some 20) [2] None; mk_last 2 (Some 10) [] (Some Skipped)]
         [ {| o_entry := mk_entry 1 "A"; o_times_last := 0; o_last_gws := [];
              o_forfeits := Some "owes a round" |};
           {| o_entry := mk_entry 2 "B"; o_times_last := 1; o_last_gws := [1];
              o_forfeits := Some "cooks dinner" |};
           {| o_entry := mk_entry 5 "E"; o_times_last := 0; o_last_gws := [];
              o_forfeits := None |} ]).
Proof. by vm_compute. Qed.







(** ** The chronology *)

Global Instance event_le_total : Total event_le.
Proof. intros r1 r2. unfold event_le. lia. Qed.
Global Instance event_le_trans : Transitive event_le.
Proof. intros r1 r2 r3. unfold event_le. lia. Qed.

(** The frame of the resolver is already in the order of its events. *)
Lemma sort_values_event_resolver (gw_points_df : list GwPoints) (gw_from gw_to : Z)
    (overrides : gmap Z Override) :
  sort_values_event (compute_last_by_gw gw_points_df gw_from gw_to overrides)
  = compute_last_by_gw gw_points_df gw_from gw_to overrides.
Proof.
  unfold sort_values_event.
  apply (Sorted_unique_strong event_le).
  - intros r1 r2 Hr1 Hr2 H12 H21.
    rewrite (merge_sort_Permutation event_le) in Hr1.
    apply elem_of_compute_last_by_gw in Hr1 as [_ Hr1].
    apply elem_of_compute_last_by_gw in Hr2 as [_ Hr2].
    unfold event_le in *.
    etrans; [exact Hr1|]. etrans; [|symmetry; exact Hr2]. f_equal. lia.
  - apply (Sorted_merge_sort event_le).
  - rewrite compute_last_by_gw_fmap.
    apply (Sorted_fmap _ Z.lt); [|apply Sorted_seqZ].
    intros x y Hxy. unfold event_le. rewrite !round_row_event. lia.
  - apply (merge_sort_Permutation event_le).
Qed.


(** Later rows of [entries_df] win in [label_map]. *)
Lemma label_map_lookup (entries_df : list Entry) (e : Z) :
  label_map entries_df !! e
  = entry_label <$> last (filter (λ row, en_entry row = e) entries_df).
Proof.
  unfold label_map. rewrite (foldl_insert_lookup en_entry entry_label), lookup_empty.
  by destruct (last _).
Qed.

(** ** More on the resolver and the aggregator *)

(** A row of the resolver depends on the overrides through the entry of
    its own gameweek only, and not at all when the gameweek has no score. *)
Lemma round_row_overrides (gw_points_df : list GwPoints)
    (overrides overrides' : gmap Z Override) (g : Z) :
  ((∃ r, r ∈ gw_points_df ∧ gp_event r = g) → overrides !! g = overrides' !! g) →
  round_row gw_points_df overrides g = round_row gw_points_df overrides' g.
Proof.
  intros Hsame. unfold round_row.
  destruct (rows_of_event gw_points_df g) as [|r sub] eqn:Hsub; [done|].
  rewrite Hsame; [done|]. exists r. apply elem_of_rows_of_event. rewrite Hsub. left.
Qed.

Lemma round_row_min_points (gw_points_df : list GwPoints) (overrides : gmap Z Override)
    (g : Z) :
  lr_min_points (round_row gw_points_df overrides g)
  = series_min (gp_gw_points <$> rows_of_event gw_points_df g).
Proof.
  unfold round_row. destruct (rows_of_event gw_points_df g) as [|r sub]; [done|].
  by destruct (apply_override _ _).
Qed.

(** X19. The overrides reach the result only through the gameweeks of
    the range that have a score: two dicts that agree on these give the
    same frame.  And no override changes [event] or [min_points]: an
    ejected or skipped gameweek still reports the minimum of its points. *)
Theorem overrides_reach (gw_points_df : list GwPoints) (gw_from gw_to : Z)
    (overrides overrides' : gmap Z Override) :
  ((∀ g, gw_from ≤ g ≤ gw_to → (∃ r, r ∈ gw_points_df ∧ gp_event r = g) →
         overrides !! g = overrides' !! g) →
   compute_last_by_gw gw_points_df gw_from gw_to overrides
   = compute_last_by_gw gw_points_df gw_from gw_to overrides') ∧
  (λ res, (lr_event res, lr_min_points res))
    <$> compute_last_by_gw gw_points_df gw_from gw_to overrides
  = (λ g, (g, series_min (gp_gw_points <$> rows_of_event gw_points_df g)))
      <$> py_range gw_from (gw_to + 1).
Proof.
  rewrite !compute_last_by_gw_fmap. split.
  - intros Hsame. apply list_fmap_ext.
    intros i g Hg%list_elem_of_lookup_2%elem_of_py_range.
    apply round_row_overrides. apply Hsame. lia.
  - rewrite <- list_fmap_compose. apply list_fmap_ext. intros _ g _. simpl.
    by rewrite round_row_event, round_row_min_points.
Qed.

Lemma overrides_reach_witness :
  compute_last_by_gw league_points 1 4 league_overrides
  = compute_last_by_gw league_points 1 4
      (<[4 := {| ov_action := "eject"; ov_note := "" |}]>
         (<[9 := {| ov_action := "skip"; ov_note := "" |}]> league_overrides)).
Proof.
  apply (overrides_reach league_points 1 4 league_overrides
           (<[4 := {| ov_action := "eject"; ov_note := "" |}]>
              (<[9 := {| ov_action := "skip"; ov_note := "" |}]> league_overrides))).
  intros g Hg (r & Hr & Hev).
  assert (g ≠ 4 ∧ g ≠ 9) as [H4 H9].
  { split; [|lia]. intros ->.
    repeat (apply elem_of_cons in Hr as [->|Hr]; [done|]). by apply elem_of_nil in Hr. }
  by rewrite !lookup_insert_ne.
Defined.

(** X20. The entries of a row are listed in the order of the rows of the
    frame: [last_entries] is a subsequence of the column [entry] of the
    rows of its gameweek. *)
Theorem last_entries_in_frame_order (gw_points_df : list GwPoints) (gw_from gw_to : Z)
    (overrides : gmap Z Override) (res : LastRow) :
  res ∈ compute_last_by_gw gw_points_df gw_from gw_to overrides →
  lr_last_entries res `sublist_of` gp_entry <$> rows_of_event gw_points_df (lr_event res).
Proof.
  intros [_ Hres]%elem_of_compute_last_by_gw. rewrite Hres at 1.
  apply round_row_last_entries_sublist.
Qed.

Lemma last_entries_in_frame_order_witness :
  lr_last_entries (mk_last 3 (Some 25) [1; 2] None)
  `sublist_of` gp_entry <$> rows_of_event league_points
                              (lr_event (mk_last 3 (Some 25) [1; 2] None)).
Proof.
  apply (last_entries_in_frame_order league_points 1 4 league_overrides
           (mk_last 3 (Some 25) [1; 2] None)).
  do 2 right. left.
Defined.

Lemma merge_left_forfeits_columns (ov : list (Entry * nat * list Z))
    (notes : list (Z * string)) (o : OverviewRow) :
  o ∈ merge_left_forfeits ov notes →
  (o_entry o, o_times_last o, o_last_gws o) ∈ ov.
Proof.
  unfold merge_left_forfeits. intros ([[en t] g] & Ho & Hin)%list_elem_of_bind.
  destruct (filter (λ n, n.1 = en_entry en) notes) as [|n ms].
  - apply list_elem_of_singleton in Ho as ->. done.
  - apply list_elem_of_fmap in Ho as (n' & -> & _). done.
Qed.

(** X21. For every input, also one with several notes for an entry, the
    two counting columns of the overview agree: [times_last] is the length
    of [last_gws], [last_gws] is in ascending order, and both are the
    events that [last_df] pairs with the entry in rows of reason [None]. *)
Theorem overview_columns_agree (entries_df : list Entry) (last_df : list LastRow)
    (forfeits_df : option (list (Z * string))) :
  Forall (λ o, o_times_last o = length (o_last_gws o) ∧
               Sorted Z.le (o_last_gws o) ∧
               o_last_gws o ≡ₚ events_of (last_expanded last_df) (en_entry (o_entry o)) ∧
               o_entry o ∈ entries_df)
         (merge_overview entries_df last_df forfeits_df).
Proof.
  apply Forall_forall. intros o Ho.
  assert ((o_entry o, o_times_last o, o_last_gws o)
          ∈ (λ en, (en, length (events_of (last_expanded last_df) (en_entry en)),
                    sorted (events_of (last_expanded last_df) (en_entry en))))
              <$> entries_df) as Hin.
  { rewrite <- overview_before_forfeits. unfold merge_overview in Ho.
    destruct forfeits_df as [[|n ns]|].
    - unfold assign_forfeits in Ho.
      apply list_elem_of_fmap in Ho as ([[en t] g] & -> & Hin). done.
    - by apply merge_left_forfeits_columns in Ho.
    - unfold assign_forfeits in Ho.
      apply list_elem_of_fmap in Ho as ([[en t] g] & -> & Hin). done. }
  apply list_elem_of_fmap in Hin as (en & [= -> -> ->] & Hen).
  unfold sorted. split_and!.
  - symmetry. apply Permutation_length, (merge_sort_Permutation Z.le).
  - apply (Sorted_merge_sort Z.le).
  - apply (merge_sort_Permutation Z.le).
  - done.
Qed.

(** X22. After the override form is submitted for a gameweek, the
    resolver run on the reloaded overrides gives the same rows as before
    for every other gameweek; the row of the chosen gameweek, when it has a
    score, gets the reason of the chosen action, with no entries unless the
    action is ["None"]. *)
Theorem form_then_resolver (db : Db) (league_id ov_gw : Z) (ov_action ov_note : string)
    (gw_points_df : list GwPoints) (gw_from gw_to : Z) :
  ∃ db',
    override_form_submit db league_id ov_gw ov_action ov_note = Committed db' ∧
    (∀ g, g ≠ ov_gw →
          round_row gw_points_df (load_overrides db' league_id) g
          = round_row gw_points_df (load_overrides db league_id) g) ∧
    (∀ g, gw_from ≤ g ≤ gw_to → g ≠ ov_gw →
          filter (λ r, lr_event r = g)
            (compute_last_by_gw gw_points_df gw_from gw_to (load_overrides db' league_id))
          = filter (λ r, lr_event r = g)
              (compute_last_by_gw gw_points_df gw_from gw_to (load_overrides db league_id))) ∧
    (gw_from ≤ ov_gw ≤ gw_to →
     (∃ r, r ∈ gw_points_df ∧ gp_event r = ov_gw) →
     ∃ res,
       filter (λ r, lr_event r = ov_gw)
         (compute_last_by_gw gw_points_df gw_from gw_to (load_overrides db' league_id))
       = [res] ∧
       lr_reason res
       = (if decide (ov_action = "None") then None
          else if decide (ov_action = "Skip") then Some Skipped else Some Ejected) ∧
       (ov_action ≠ "None" → lr_last_entries res = [])).
Proof.
  assert (∃ db' action,
            override_form_submit db league_id ov_gw ov_action ov_note = Committed db' ∧
            action = (if decide (ov_action = "None") then "none"
                      else if decide (ov_action = "Skip") then "skip" else "eject") ∧
            load_overrides db' league_id
            = <[ov_gw := {| ov_action := action; ov_note := ov_note |}]>
                (load_overrides db league_id)) as (db' & action & Hsub & Hact & Hload).
  { unfold override_form_submit.
    destruct (decide (ov_action = "None")); [|destruct (decide (ov_action = "Skip"))].
    - destruct (set_override_commits db league_id ov_gw "none" ov_note)
        as (db' & ? & ? & _); [by apply check_action_cases; left|]. by exists db', "none".
    - destruct (set_override_commits db league_id ov_gw "skip" ov_note)
        as (db' & ? & ? & _); [by apply check_action_cases; right; left|].
      by exists db', "skip".
    - destruct (set_override_commits db league_id ov_gw "eject" ov_note)
        as (db' & ? & ? & _); [by apply check_action_cases; right; right|].
      by exists db', "eject". }
  exists db'. rewrite Hload.
  assert (∀ g, g ≠ ov_gw →
               round_row gw_points_df
                 (<[ov_gw := {| ov_action := action; ov_note := ov_note |}]>
                    (load_overrides db league_id)) g
               = round_row gw_points_df (load_overrides db league_id) g) as Hother.
  { intros g Hg. apply round_row_overrides. intros _. by rewrite lookup_insert_ne. }
  split_and!; [done|done| |].
  - intros g Hrange Hg. rewrite !rows_for_event by done. f_equal. by apply Hother.
  - intros Hrange (r0 & Hr0 & Hev0). eexists. split; [by apply rows_for_event|].
    destruct (round_row_data gw_points_df
                (<[ov_gw := {| ov_action := action; ov_note := ov_note |}]>
                   (load_overrides db league_id)) ov_gw r0 Hr0 Hev0) as (m & _ & ->).
    cbn [lr_reason lr_last_entries]. rewrite lookup_insert_eq.
    unfold apply_override. simpl. subst action.
    destruct (decide (ov_action = "None")); [|destruct (decide (ov_action = "Skip"))];
      simpl; by split.
Qed.

(** ** The resolver on a frame with missing points *)

Lemma compute_last_by_gw_na_fmap (gw_points_df : list GwCell) (gw_from gw_to : Z)
    (overrides : gmap Z Override) :
  compute_last_by_gw_na gw_points_df gw_from gw_to overrides
  = round_row_na gw_points_df overrides <$> py_range gw_from (gw_to + 1).
Proof. unfold compute_last_by_gw_na. by rewrite foldl_snoc_fmap. Qed.

Lemma round_row_na_event (gw_points_df : list GwCell) (overrides : gmap Z Override)
    (gw : Z) :
  lr_event (round_row_na gw_points_df overrides gw) = gw.
Proof.
  unfold round_row_na. destruct (rows_of_event_na gw_points_df gw); [done|].
  by destruct (apply_override _ _).
Qed.

Lemma elem_of_compute_last_by_gw_na (gw_points_df : list GwCell) (gw_from gw_to : Z)
    (overrides : gmap Z Override) (res : LastRow) :
  res ∈ compute_last_by_gw_na gw_points_df gw_from gw_to overrides ↔
  gw_from ≤ lr_event res ≤ gw_to ∧
  res = round_row_na gw_points_df overrides (lr_event res).
Proof.
  rewrite compute_last_by_gw_na_fmap, list_elem_of_fmap. split.
  - intros (gw & -> & Hgw%elem_of_py_range). rewrite round_row_na_event.
    split; [lia|done].
  - intros [Hgw Hres]. exists (lr_event res). split; [done|].
    apply elem_of_py_range. lia.
Qed.

Lemma omap_id_Some (s : list Z) : omap id (Some <$> s) = s.
Proof. induction s as [|x s IH]; [done|]. csimpl. by rewrite IH. Qed.

(** The row of a gameweek with at least one row of the frame. *)
Lemma round_row_na_data (gw_points_df : list GwCell) (overrides : gmap Z Override)
    (g : Z) :
  rows_of_event_na gw_points_df g ≠ [] →
  round_row_na gw_points_df overrides g
  = {| lr_event := g;
       lr_min_points := series_min_skipna (gc_gw_points <$> rows_of_event_na gw_points_df g);
       lr_last_entries :=
         (apply_override (overrides !! g)
            (entries_at_na (rows_of_event_na gw_points_df g)
               (series_min_skipna (gc_gw_points <$> rows_of_event_na gw_points_df g)))).1;
       lr_reason :=
         (apply_override (overrides !! g)
            (entries_at_na (rows_of_event_na gw_points_df g)
               (series_min_skipna (gc_gw_points <$> rows_of_event_na gw_points_df g)))).2 |}.
Proof.
  intros Hne. unfold round_row_na.
  destruct (rows_of_event_na gw_points_df g) as [|r sub]; [done|].
  by destruct (apply_override _ _).
Qed.

Lemma round_row_rows (gw_points_df : list GwPoints) (overrides : gmap Z Override)
    (g : Z) :
  rows_of_event gw_points_df g ≠ [] →
  round_row gw_points_df overrides g
  = {| lr_event := g;
       lr_min_points := series_min (gp_gw_points <$> rows_of_event gw_points_df g);
       lr_last_entries :=
         (apply_override (overrides !! g)
            (entries_at (rows_of_event gw_points_df g)
               (series_min (gp_gw_points <$> rows_of_event gw_points_df g)))).1;
       lr_reason :=
         (apply_override (overrides !! g)
            (entries_at (rows_of_event gw_points_df g)
               (series_min (gp_gw_points <$> rows_of_event gw_points_df g)))).2 |}.
Proof.
  intros Hne. unfold round_row.
  destruct (rows_of_event gw_points_df g) as [|r sub]; [done|].
  by destruct (apply_override _ _).
Qed.

Lemma rows_of_event_na_with_points (gw_points_df : list GwPoints) (gw : Z) :
  rows_of_event_na (with_points <$> gw_points_df) gw
  = with_points <$> rows_of_event gw_points_df gw.
Proof.
  unfold rows_of_event_na, rows_of_event.
  induction gw_points_df as [|r df IH]; [done|].
  rewrite fmap_cons, !filter_cons, IH. simpl. by case_decide.
Qed.

Lemma series_min_skipna_with_points (l : list GwPoints) :
  series_min_skipna (gc_gw_points <$> (with_points <$> l))
  = series_min (gp_gw_points <$> l).
Proof.
  unfold series_min_skipna. rewrite <- list_fmap_compose.
  rewrite (list_fmap_compose gp_gw_points Some). by rewrite omap_id_Some.
Qed.

Lemma entries_at_na_with_points (l : list GwPoints) (min_pts : option Z) :
  entries_at_na (with_points <$> l) min_pts = entries_at l min_pts.
Proof.
  unfold entries_at_na, entries_at.
  induction l as [|x l IH]; [done|].
  rewrite fmap_cons, !filter_cons. simpl.
  destruct (decide (Some (gp_gw_points x) = min_pts)) as [Heq|Hne].
  - rewrite decide_True by (split; [by rewrite <- Heq|done]). csimpl. by rewrite IH.
  - rewrite decide_False by (by intros [_ ?]). done.
Qed.

(** On a frame without missing points the two resolvers agree. *)
Lemma round_row_na_with_points (gw_points_df : list GwPoints)
    (overrides : gmap Z Override) (gw : Z) :
  round_row_na (with_points <$> gw_points_df) overrides gw
  = round_row gw_points_df overrides gw.
Proof.
  destruct (rows_of_event gw_points_df gw) as [|r sub] eqn:Hsub.
  - unfold round_row_na, round_row.
    by rewrite rows_of_event_na_with_points, Hsub.
  - rewrite round_row_na_data, round_row_rows.
    + by rewrite rows_of_event_na_with_points, series_min_skipna_with_points,
        entries_at_na_with_points.
    + by rewrite Hsub.
    + by rewrite rows_of_event_na_with_points, Hsub.
Qed.

Lemma compute_last_by_gw_na_with_points (gw_points_df : list GwPoints)
    (gw_from gw_to : Z) (overrides : gmap Z Override) :
  compute_last_by_gw_na (with_points <$> gw_points_df) gw_from gw_to overrides
  = compute_last_by_gw gw_points_df gw_from gw_to overrides.
Proof.
  rewrite compute_last_by_gw_na_fmap, compute_last_by_gw_fmap.
  apply list_fmap_ext. intros _ gw _. apply round_row_na_with_points.
Qed.

Lemma series_min_skipna_is_Some (s : list (option Z)) :
  is_Some (series_min_skipna s) ↔ ∃ p, Some p ∈ s.
Proof.
  unfold series_min_skipna. split.
  - intros [m Hm]. apply series_min_spec in Hm as [Hin _].
    apply list_elem_of_omap in Hin as (c & Hc & Hid). simpl in Hid. subst c. by exists m.
  - intros (p & Hp). apply series_min_is_Some.
    assert (p ∈ omap id s) as Hin
      by (apply list_elem_of_omap; by exists (Some p)).
    by apply elem_of_not_nil in Hin.
Qed.

Lemma series_min_skipna_elem (s : list (option Z)) (m : Z) :
  series_min_skipna s = Some m → Some m ∈ s ∧ ∀ p, Some p ∈ s → m ≤ p.
Proof.
  unfold series_min_skipna. intros [Hin Hle]%series_min_spec. split.
  - apply list_elem_of_omap in Hin as (c & Hc & Hid). simpl in Hid. by subst c.
  - intros p Hp. apply Hle. apply list_elem_of_omap. by exists (Some p).
Qed.

Lemma entries_at_na_nonempty (sub : list GwCell) :
  (∃ e, e ∈ entries_at_na sub (series_min_skipna (gc_gw_points <$> sub))) ↔
  is_Some (series_min_skipna (gc_gw_points <$> sub)).
Proof.
  unfold entries_at_na. split.
  - intros (e & (r & -> & [[Hmin _] _]%list_elem_of_filter)%list_elem_of_fmap). done.
  - intros [m Hm]. pose proof Hm as [Hin _]%series_min_skipna_elem.
    apply list_elem_of_fmap in Hin as (r & Hpts & Hr).
    exists (gc_entry r). apply list_elem_of_fmap. exists r. split; [done|].
    apply list_elem_of_filter. rewrite Hm. split; [|done]. split; [by eexists|done].
Qed.

(** A row with reason [None]: its entries are the entries at the minimum,
    and there are some exactly when some points of the gameweek are
    present. *)
Lemma reason_None_na (gw_points_df : list GwCell) (gw_from gw_to : Z)
    (overrides : gmap Z Override) (res : LastRow) :
  res ∈ compute_last_by_gw_na gw_points_df gw_from gw_to overrides →
  lr_reason res = None →
  ((∃ e, e ∈ lr_last_entries res) ↔ is_Some (lr_min_points res)) ∧
  (is_Some (lr_min_points res) ↔
   ∃ r, r ∈ gw_points_df ∧ gc_event r = lr_event res ∧ is_Some (gc_gw_points r)) ∧
  (∃ r, r ∈ gw_points_df ∧ gc_event r = lr_event res).
Proof.
  intros [_ Hres]%elem_of_compute_last_by_gw_na Hreason.
  remember (lr_event res) as g eqn:Hg. clear Hg. subst res.
  destruct (rows_of_event_na gw_points_df g) as [|r0 sub] eqn:Hsub.
  { unfold round_row_na in Hreason. by rewrite Hsub in Hreason. }
  rewrite round_row_na_data in Hreason |- * by (by rewrite Hsub).
  cbn [lr_last_entries lr_min_points lr_reason lr_event] in *.
  assert ((apply_override (overrides !! g)
             (entries_at_na (rows_of_event_na gw_points_df g)
                (series_min_skipna (gc_gw_points <$> rows_of_event_na gw_points_df g)))).1
          = entries_at_na (rows_of_event_na gw_points_df g)
              (series_min_skipna (gc_gw_points <$> rows_of_event_na gw_points_df g))) as ->.
  { unfold apply_override in *. destruct (overrides !! g) as [ov|]; [|done].
    by repeat case_decide. }
  split_and!.
  - apply entries_at_na_nonempty.
  - rewrite series_min_skipna_is_Some. unfold rows_of_event_na. split.
    + intros (p & (r & Hp & [Hev Hr]%list_elem_of_filter)%list_elem_of_fmap).
      exists r. split_and!; [done|done|]. rewrite <- Hp. by eexists.
    + intros (r & Hr & Hev & [p Hp]). exists p. apply list_elem_of_fmap.
      exists r. split; [done|]. by apply list_elem_of_filter.
  - exists r0.
    assert (r0 ∈ rows_of_event_na gw_points_df g) as [? ?]%list_elem_of_filter
      by (rewrite Hsub; left). done.
Qed.




(** ** The chronology of the resolver's frame *)

(** A frame with one row per gameweek of a range, in the order of the
    range, is left as it is by [sort_values("event")]. *)
Lemma sort_values_event_rows (f : Z → LastRow) (lo hi : Z) :
  (∀ g, lr_event (f g) = g) →
  sort_values_event (f <$> py_range lo hi) = f <$> py_range lo hi.
Proof.
  intros Hev. unfold sort_values_event.
  apply (Sorted_unique_strong event_le).
  - intros r1 r2 Hr1 Hr2 H12 H21.
    rewrite (merge_sort_Permutation event_le) in Hr1.
    apply list_elem_of_fmap in Hr1 as (g1 & -> & _).
    apply list_elem_of_fmap in Hr2 as (g2 & -> & _).
    unfold event_le in *. rewrite !Hev in H12, H21. f_equal. lia.
  - apply (Sorted_merge_sort event_le).
  - apply (Sorted_fmap _ Z.lt); [|apply Sorted_seqZ].
    intros x y Hxy. unfold event_le. rewrite !Hev. lia.
  - apply (merge_sort_Permutation event_le).
Qed.

Lemma chronology_rows (entries_df : list Entry) (last_df : list LastRow) :
  last_df ≠ [] →
  chronology entries_df last_df
  = Returned ((λ r, (lr_event r, chronology_tag (label_map entries_df) r))
                <$> sort_values_event last_df).
Proof. by destruct last_df. Qed.

(** X18. On an empty range the resolver's frame has no column and the
    chronology raises [KeyError].  Otherwise it has one line per gameweek
    of the range, in the order of the frame; the tag of a line is
    "None (ejected)", "None (skipped)" or "None" for the three reasons.  For
    the reason [None] it is the joined names of the row's entries, which
    are not empty, when [min_points] is defined, and "None" when the points
    of the gameweek are all missing: only then does the test for an empty
    list of entries decide a tag.  The name of an entry of [entries_df] is
    its label, that of the last row when it has several. *)
Theorem chronology_of_resolver (entries_df : list Entry) (gw_points_df : list GwCell)
    (gw_from gw_to : Z) (overrides : gmap Z Override) :
  chronology entries_df (compute_last_by_gw_na gw_points_df gw_from gw_to overrides)
  = (if decide (gw_from ≤ gw_to)
     then Returned
            ((λ r, (lr_event r,
                    match lr_reason r with
                    | Some Ejected => "None (ejected)"
                    | Some Skipped => "None (skipped)"
                    | Some NoData => "None"
                    | None =>
                        match lr_min_points r with
                        | Some _ => py_join ", " (row_names (label_map entries_df) r)
                        | None => "None"
                        end
                    end))
               <$> compute_last_by_gw_na gw_points_df gw_from gw_to overrides)
     else Raised KeyError) ∧
  (∀ r, r ∈ compute_last_by_gw_na gw_points_df gw_from gw_to overrides →
        lr_reason r = None → is_Some (lr_min_points r) →
        row_names (label_map entries_df) r ≠ []) ∧
  (∀ e, label_map entries_df !! e
        = entry_label <$> last (filter (λ row, en_entry row = e) entries_df)).
Proof.
  split_and!.
  - case_decide as Hrange.
    + rewrite chronology_rows.
      2: { rewrite compute_last_by_gw_na_fmap. unfold py_range.
           by rewrite seqZ_cons by lia. }
      f_equal. rewrite compute_last_by_gw_na_fmap at 1.
      rewrite sort_values_event_rows by (intros g; apply round_row_na_event).
      rewrite <- compute_last_by_gw_na_fmap.
      apply list_fmap_ext. intros i r Hr%list_elem_of_lookup_2. f_equal.
      unfold chronology_tag. destruct (lr_reason r) as [[]|] eqn:Hreason; try done.
      simpl. destruct (reason_None_na _ _ _ _ _ Hr Hreason) as ([Hex Hmin] & _ & _).
      destruct (lr_min_points r) as [m|].
      * destruct Hmin as [e He]; [by eexists|].
        destruct (lr_last_entries r); [by apply elem_of_nil in He|done].
      * destruct (lr_last_entries r) as [|e es]; [done|].
        destruct Hex as [? ?]; [exists e; left|done].
    + rewrite compute_last_by_gw_na_fmap. unfold py_range.
      by rewrite seqZ_nil by lia.
  - intros r Hr Hreason Hmin.
    destruct (reason_None_na _ _ _ _ _ Hr Hreason) as ([_ Hex] & _ & _).
    destruct (Hex Hmin) as [e He]. unfold row_names.
    destruct (lr_last_entries r); [by apply elem_of_nil in He|done].
  - apply label_map_lookup.
Qed.

Example league_chronology :
  chronology league_entries league_last
  = Returned [(1, "B (B)"); (2, "None (skipped)"); (3, "A (A), B (B)"); (4, "None")].
Proof. by vm_compute. Qed.

Example empty_range_chronology :
  chronology league_entries (compute_last_by_gw league_points 5 2 league_overrides)
  = Raised KeyError.
Proof. reflexivity. Qed.

Example missing_points_chronology :
  chronology league_entries
    (compute_last_by_gw_na
       [ {| gc_entry := 1; gc_event := 5; gc_gw_points := None; gc_total_points := None |} ]
       5 5 ∅)
  = Returned [(5, "None")].
Proof. by vm_compute. Qed.
